(** * copy-template.sh: the scaffolding script, embedded and checked

    The script copies the template tree into a destination directory,
    derives a slug and a display name from the destination's last path
    segment, and rewrites two placeholder tokens in [app.json] and
    [package.json].

    Data that flows through pipes is a list of bytes ([text]).  External
    commands whose result the script cannot decide (the directory test, the
    operator's answer, the statuses of [mkdir], [rsync], [sed] and [echo],
    the tree [rsync] leaves behind) are fields of a [world] record; the
    script itself is a computation in a small state-and-exit monad.

    Regular expressions are read in the C locale, byte by byte.  The case
    conversion [\U] in a replacement is read as GNU sed reads it, and
    [sed -i ''] as the script's comment reads it: edit in place, no backup. *)

From Stdlib Require Import Ascii String.
From stdpp Require Import base list strings gmap.

Local Open Scope char_scope.
Local Open Scope list_scope.

Set Warnings "-clear-no-such-hyp".

(** ** Bytes and character classes *)

Abbreviation text := (list ascii).

Definition txt (s : string) : text := list_ascii_of_string s.

Definition nl : ascii := "010".

Definition in_range (lo hi : nat) (c : ascii) : bool :=
  (lo <=? nat_of_ascii c)%nat && (nat_of_ascii c <=? hi)%nat.

(** [[:upper:]], [[a-z]] and [[0-9]] in the C locale. *)
Definition is_upper : ascii -> bool := in_range 65 90.
Definition is_lower : ascii -> bool := in_range 97 122.
Definition is_digit : ascii -> bool := in_range 48 57.

(** The bracket expression [[a-z0-9]] and its complement [[^a-z0-9]]. *)
Definition is_alnum (c : ascii) : bool := is_lower c || is_digit c.
Definition non_alnum (c : ascii) : bool := negb (is_alnum c).

Definition is_hyphen (c : ascii) : bool := Ascii.eqb c "-".
Definition is_slash (c : ascii) : bool := Ascii.eqb c "/".
Definition is_nl (c : ascii) : bool := Ascii.eqb c nl.

Definition to_lower (c : ascii) : ascii :=
  if is_upper c then ascii_of_nat (nat_of_ascii c + 32) else c.

Definition to_upper (c : ascii) : ascii :=
  if is_lower c then ascii_of_nat (nat_of_ascii c - 32) else c.

(** ** The utilities of the pipelines *)

(** Length of the longest prefix whose bytes all satisfy [p]. *)
Fixpoint span_len (p : ascii -> bool) (l : text) : nat :=
  match l with
  | c :: r => if p c then S (span_len p r) else 0
  | [] => 0
  end.

(** [l] without its longest suffix of bytes that satisfy [p]. *)
Fixpoint rstrip (p : ascii -> bool) (l : text) : text :=
  match l with
  | [] => []
  | c :: r =>
      match rstrip p r with
      | [] => if p c then [] else [c]
      | r' => c :: r'
      end
  end.

(** [$(...)]: command substitution drops every trailing newline. *)
Definition strip_nl (l : text) : text := rstrip is_nl l.

(** The shell's builtin [echo "$X"].  A word made of [-] followed by one or
    more of [n], [e], [E] is taken as an option, and then there is nothing
    left to print: no output with [n], a lone newline otherwise.  Any other
    word is printed followed by a newline. *)
Definition is_echo_flag (c : ascii) : bool :=
  Ascii.eqb c "n" || Ascii.eqb c "e" || Ascii.eqb c "E".

Definition echo_option (l : text) : bool :=
  match l with
  | c :: d :: r => is_hyphen c && forallb is_echo_flag (d :: r)
  | _ => false
  end.

Definition echo_out (l : text) : text :=
  if echo_option l
  then (if existsb (Ascii.eqb "n") l then [] else [nl])
  else l ++ [nl].

(** [tr '[:upper:]' '[:lower:]'] and [tr '-' ' ']. *)
Definition tr_lower (l : text) : text := map to_lower l.

Definition hyphen_to_space (c : ascii) : ascii := if is_hyphen c then " " else c.
Definition tr_hyphen_space (l : text) : text := map hyphen_to_space l.

(** *** sed: lines, and [s/re/replacement/g] on one line *)

(** The pieces of the input between newlines; a terminated last line leaves
    an empty last piece. *)
Fixpoint lines (l : text) : list text :=
  match l with
  | [] => [[]]
  | c :: r =>
      if is_nl c then [] :: lines r
      else match lines r with
           | l0 :: ls => (c :: l0) :: ls
           | [] => [[c]]
           end
  end.

(** sed runs its script on every line and prints it with its newline; a last
    line without newline is printed without one, and nothing is printed
    after the last newline. *)
Fixpoint sed_out (f : text -> text) (ls : list text) : text :=
  match ls with
  | [] => []
  | l0 :: ls' =>
      match ls' with
      | [] => match l0 with [] => [] | _ => f l0 end
      | _ => f l0 ++ nl :: sed_out f ls'
      end
  end.

(** A regular expression is given by what it matches at one position of the
    line: [m bol rest] is the length of the longest match that starts where
    [rest] starts ([bol] tells whether that is the beginning of the line),
    with the text that replaces it. *)
Definition matcher := bool -> text -> option (nat * text).

(** The [g] flag: scan the line from the left, replace the leftmost longest
    match, go on after it.  [skip] counts the bytes of a match still to be
    passed over.  None of the expressions below matches the empty string. *)
Fixpoint gsub (m : matcher) (skip : nat) (bol : bool) (l : text) : text :=
  match l with
  | [] => []
  | c :: r =>
      match skip with
      | S k => gsub m k false r
      | O =>
          match m bol l with
          | Some (S n, rep) => rep ++ gsub m n false r
          | _ => c :: gsub m 0 false r
          end
      end
  end.

Definition sed_s (m : matcher) (input : text) : text :=
  sed_out (gsub m 0 true) (lines input).

(** [s/[^a-z0-9]+/-/g] *)
Definition re_non_alnum_run : matcher := fun _ l =>
  match span_len non_alnum l with
  | O => None
  | n => Some (n, ["-"])
  end.

(** [s/^-+|-+$//g]: a run of hyphens at the beginning of the line, or one
    that reaches the end of the line. *)
Definition re_edge_hyphens : matcher := fun bol l =>
  match span_len is_hyphen l with
  | O => None
  | n => if bol || (n =? length l)%nat then Some (n, []) else None
  end.

(** [s/(^|-)([a-z])/\U\2/g]: the match is the letter at the beginning of the
    line, or a hyphen and the letter after it; the replacement is the second
    group in upper case (GNU sed), and nothing of the first group. *)
Definition re_word_initial : matcher := fun bol l =>
  match l with
  | c :: r =>
      if bol && is_lower c then Some (1, [to_upper c])
      else if is_hyphen c then
        match r with
        | d :: _ => if is_lower d then Some (2, [to_upper d]) else None
        | [] => None
        end
      else None
  | [] => None
  end.

(** [s#pattern#replacement#g] for a pattern without repetition or anchors:
    [.] stands for any byte of the line, every other byte for itself. *)
Fixpoint bre_prefix (pat l : text) : bool :=
  match pat, l with
  | [], _ => true
  | p :: pat', c :: l' => (Ascii.eqb p "." || Ascii.eqb p c) && bre_prefix pat' l'
  | _ :: _, [] => false
  end.

Definition re_plain (pat rep : text) : matcher := fun _ l =>
  if bre_prefix pat l then Some (length pat, rep) else None.

(** ** Identifier derivation (script step 4) *)

(** [basename "$TARGET_DIR"] for an operand: trailing slashes go, then
    everything up to the last slash; a path of slashes only is [/].  The
    utility prints the name and a newline, which [$(...)] strips again. *)
Fixpoint last_segment (acc l : text) : text :=
  match l with
  | [] => acc
  | c :: r => if is_slash c then last_segment [] r else last_segment (acc ++ [c]) r
  end.

Definition basename (path : text) : text :=
  match path with
  | [] => []
  | _ => match rstrip is_slash path with
         | [] => ["/"]
         | p => last_segment [] p
         end
  end.

Definition BASENAME (TARGET_DIR : text) : text :=
  strip_nl (basename TARGET_DIR ++ [nl]).

(** [APP_SLUG=$(echo "$BASENAME" | tr '[:upper:]' '[:lower:]'
      | sed -E 's/[^a-z0-9]+/-/g' | sed -E 's/^-+|-+$//g')] *)
Definition APP_SLUG (BASENAME : text) : text :=
  strip_nl (sed_s re_edge_hyphens (sed_s re_non_alnum_run (tr_lower (echo_out BASENAME)))).

(** [APP_NAME=$(echo "$APP_SLUG" | sed -E 's/(^|-)([a-z])/\U\2/g' | tr '-' ' ')] *)
Definition APP_NAME (APP_SLUG : text) : text :=
  strip_nl (tr_hyphen_space (sed_s re_word_initial (echo_out APP_SLUG))).

(** ** The script as a computation *)

(** What the script prints, without the colour codes. *)
Inductive message :=
| Usage | UsageExample
| WarnExists (d : text) | Blank | Cancelled
| MkdirError (d : text)
| TargetDirectory (d : text) | Sep | Copying
| CopyError | Copied (d : text)
| DerivedName (n : text) | DerivedSlug (s : text)
| Replacing
| Processing (f : string) | WarnFailed (f : string) | WarnNotFound (f : string)
| ReplacedOk | SetupComplete | NextSteps
| StepCd (d : text) | StepInstall | StepGitInit
| ReplaceError.

(** What the script does to its surroundings, in order. *)
Inductive event :=
| Say (m : message)                      (* echo *)
| Ask                                    (* read -p ... -n 1 -r *)
| MkdirP (d : text)                      (* mkdir -p *)
| Rsync (d : text)                       (* rsync -av --exclude=... ./ d/ *)
| SedI (f : string) (pat rep : text).    (* sed -i '' -e s#pat#rep#g d/f *)

(** What the script cannot decide by itself. *)
Record world := World {
  args : list text;                      (* the positional parameters *)
  dir_exists : bool;                     (* [ -d "$TARGET_DIR" ] *)
  reply : text;                          (* REPLY after read *)
  mkdir_status : Z;
  rsync_status : Z;
  dest_before : gmap string text;        (* regular files of the destination at the start *)
  rsync_dest : gmap string text;         (* and once rsync has returned *)
  sed_status : string -> text -> Z;      (* status of a well-formed sed call, by file and pattern *)
  echo_status : Z
}.

(** The destination's files, the events so far (the latest first), and [$?]. *)
Record state := State {
  fs : gmap string text;
  out : list event;
  status : Z
}.

Inductive outcome (A : Type) :=
| Next (a : A)
| Exit (code : Z).
Arguments Next {A} a.
Arguments Exit {A} code.

Definition sh (A : Type) : Type := state -> outcome A * state.

#[global] Instance sh_ret : MRet sh := fun A a st => (Next a, st).
#[global] Instance sh_bind : MBind sh := fun A B f m st =>
  match m st with
  | (Next a, st') => f a st'
  | (Exit c, st') => (Exit c, st')
  end.

Definition exit {A} (c : Z) : sh A := fun st => (Exit c, st).
Definition get_status : sh Z := fun st => (Next (status st), st).
Definition set_status (z : Z) : sh unit := fun st =>
  (Next (), State (fs st) (out st) z).
Definition is_file (f : string) : sh bool := fun st =>
  (Next (match fs st !! f with Some _ => true | None => false end), st).

(** [if c; then body; fi]: the status is zero when no branch is taken. *)
Definition if_then (c : bool) (body : sh unit) : sh unit :=
  if c then body else set_status 0.

(** [for x in xs; do body; done] *)
Fixpoint for_each {A} (xs : list A) (body : A -> sh unit) : sh unit :=
  match xs with
  | [] => mret ()
  | x :: xs' => body x ;; for_each xs' body
  end.

Definition PLACEHOLDER_SLUG_APP_JSON : text := txt "lenmie-expo-template".
Definition PLACEHOLDER_BUNDLE_ID_PREFIX : text := txt "com.javiso.".
Definition TARGET_FILES : list string := ["app.json"; "package.json"]%string.

(** [[[ $REPLY =~ ^[yY]$ ]]] *)
Definition affirmative (r : text) : bool :=
  match r with
  | [c] => Ascii.eqb c "y" || Ascii.eqb c "Y"
  | _ => false
  end.

Section Script.
Variable w : world.

Definition echo (m : message) : sh unit := fun st =>
  (Next (), State (fs st) (Say m :: out st) (echo_status w)).

Definition read_reply : sh unit := fun st =>
  (Next (), State (fs st) (Ask :: out st) 0%Z).

Definition mkdir_p (d : text) : sh unit := fun st =>
  (Next (), State (fs st) (MkdirP d :: out st) (mkdir_status w)).

Definition rsync (d : text) : sh unit := fun st =>
  (Next (), State (rsync_dest w) (Rsync d :: out st) (rsync_status w)).

(** [sed -i '' -e "s#pat#rep#g" file]: the file is edited in place when the
    command succeeds.  The replacement is pasted into the sed script, where
    a newline ends the command: sed then rejects the script. *)
Definition sed_i (f : string) (pat rep : text) : sh unit := fun st =>
  let code := if existsb is_nl rep then 1%Z else sed_status w f pat in
  (Next (),
   State (if (code =? 0)%Z then alter (sed_s (re_plain pat rep)) f (fs st) else fs st)
         (SedI f pat rep :: out st) code).

(** The body of the loop over [TARGET_FILES]. *)
Definition process_file (slug : text) (file_name : string) : sh unit :=
  present ← is_file file_name;
  if present : bool then
    echo (Processing file_name);;
    sed_i file_name PLACEHOLDER_SLUG_APP_JSON slug;;
    if_then (String.eqb file_name "app.json")
      (sed_i file_name (PLACEHOLDER_BUNDLE_ID_PREFIX ++ PLACEHOLDER_SLUG_APP_JSON)
                       (PLACEHOLDER_BUNDLE_ID_PREFIX ++ slug));;
    s ← get_status;
    if_then (negb (s =? 0)%Z) (echo (WarnFailed file_name))
  else
    echo (WarnNotFound file_name).

(** 1. Check for required arguments *)
Definition check_arguments : sh unit :=
  if_then (negb (length (args w) =? 1)%nat)
    (echo Usage;; echo UsageExample;; exit 1).

(** 2. Check if the target directory exists or create it *)
Definition resolve_target (TARGET_DIR : text) : sh unit :=
  (if dir_exists w then
     echo (WarnExists TARGET_DIR);;
     read_reply;;
     echo Blank;;
     if_then (negb (affirmative (reply w))) (echo Cancelled;; exit 1)
   else
     mkdir_p TARGET_DIR;;
     s ← get_status;
     if_then (negb (s =? 0)%Z) (echo (MkdirError TARGET_DIR);; exit 1));;
  echo (TargetDirectory TARGET_DIR);;
  echo Sep.

(** 3. rsync from the current directory, and the check of its status *)
Definition copy_tree (TARGET_DIR : text) : sh unit :=
  echo Copying;;
  rsync TARGET_DIR;;
  s ← get_status;
  if_then (negb (s =? 0)%Z) (echo CopyError;; exit 1);;
  echo (Copied TARGET_DIR);;
  echo Sep.

(** 4. Derive App Name and Slug from the target directory name, and
    replace the placeholders in the target files *)
Definition rewrite_placeholders (TARGET_DIR : text) : sh unit :=
  let slug := APP_SLUG (BASENAME TARGET_DIR) in
  let name := APP_NAME slug in
  echo (DerivedName name);;
  echo (DerivedSlug slug);;
  echo Sep;;
  echo Replacing;;
  for_each TARGET_FILES (process_file slug).

(** 5. Report the overall result *)
Definition report (TARGET_DIR : text) : sh unit :=
  echo Sep;;
  s ← get_status;
  if (s =? 0)%Z then
    echo ReplacedOk;; echo SetupComplete;; echo NextSteps;;
    echo (StepCd TARGET_DIR);; echo StepInstall;; echo StepGitInit
  else
    echo ReplaceError;; exit 1.

Definition copy_template : sh unit :=
  check_arguments;;
  let TARGET_DIR := nth 0 (args w) [] in
  resolve_target TARGET_DIR;;
  copy_tree TARGET_DIR;;
  rewrite_placeholders TARGET_DIR;;
  report TARGET_DIR.

Definition initial : state := State (dest_before w) [] 0%Z.

Definition run : outcome unit * state := copy_template initial.

(** The exit code of the process: that of [exit], or of the last command. *)
Definition exit_code : Z :=
  match run with
  | (Exit c, _) => c
  | (Next _, st) => status st
  end.

(** The events of the run, in the order they happened. *)
Definition trace : list event := reverse (out run.2).
Definition final_fs : gmap string text := fs run.2.
End Script.

(** ** Forms of text used in the statements *)

(** What [s/[^a-z0-9]+/-/g] does to a line, told by structural recursion:
    [in_run] says that the byte before was outside [[a-z0-9]]. *)
Fixpoint squeeze (in_run : bool) (l : text) : text :=
  match l with
  | [] => []
  | c :: r =>
      if is_alnum c then c :: squeeze false r
      else if in_run then squeeze true r
      else "-" :: squeeze true r
  end.

(** Lines of [[a-z0-9]] and hyphens without two hyphens in a row;
    [after_hyphen] forbids a hyphen at the head as well. *)
Fixpoint loose (after_hyphen : bool) (l : text) : bool :=
  match l with
  | [] => true
  | c :: r =>
      if is_alnum c then loose false r
      else is_hyphen c && negb after_hyphen && loose true r
  end.

(** Slug form: segments of [[a-z0-9]] separated by single hyphens, no hyphen
    at either end.  The empty text has this form. *)
Definition slug_form (l : text) : Prop :=
  loose true l = true /\ rstrip is_hyphen l = l.


(** One line through the three filters of the slug pipeline. *)
Definition slug_line (l : text) : text :=
  gsub re_edge_hyphens 0 true (gsub re_non_alnum_run 0 true (tr_lower l)).

(** A text without newline, and the three filters on a whole text. *)
Definition one_line (l : text) : Prop :=
  forallb (fun c => negb (is_nl c)) l = true.

Definition slug_filter (t : text) : text :=
  sed_s re_edge_hyphens (sed_s re_non_alnum_run (tr_lower t)).

(** The display name as the specification words it: split the slug on
    hyphens, uppercase the first character of each segment, join the
    segments with a single space. *)
Fixpoint split_hyphen (l : text) : list text :=
  match l with
  | [] => [[]]
  | c :: r =>
      if is_hyphen c then [] :: split_hyphen r
      else match split_hyphen r with
           | l0 :: ls => (c :: l0) :: ls
           | [] => [[c]]
           end
  end.

Definition capitalize (seg : text) : text :=
  match seg with
  | c :: r => to_upper c :: r
  | [] => []
  end.

Fixpoint join_space (segs : list text) : text :=
  match segs with
  | [] => []
  | [s] => s
  | s :: rest => s ++ " " :: join_space rest
  end.

Definition spec_display_name (slug : text) : text :=
  join_space (map capitalize (split_hyphen slug)).

(** The same display name, byte by byte: a hyphen becomes a space, and the
    byte at the start of a segment is put in upper case. *)
Fixpoint name_from (start : bool) (l : text) : text :=
  match l with
  | [] => []
  | c :: r =>
      if is_hyphen c then " " :: name_from true r
      else (if start then to_upper c else c) :: name_from false r
  end.

(** [needle] occurs in [hay]. *)
Fixpoint starts_with (needle hay : text) : bool :=
  match needle, hay with
  | [], _ => true
  | a :: n', b :: h' => Ascii.eqb a b && starts_with n' h'
  | _ :: _, [] => false
  end.

Fixpoint contains (needle hay : text) : bool :=
  starts_with needle hay ||
  match hay with
  | [] => false
  | _ :: h' => contains needle h'
  end.

(** ** Worlds *)

(** The run gets as far as the copy: one argument, and the destination was
    confirmed or created. *)
Definition reaches_copy (w : world) : Prop :=
  length (args w) = 1
  /\ (if dir_exists w then affirmative (reply w) = true else mkdir_status w = 0%Z).

#[global] Instance reaches_copy_dec w : Decision (reaches_copy w).
Proof. unfold reaches_copy. destruct (dir_exists w); apply _. Defined.

(** [$1], the destination. *)
Definition destination (w : world) : text := nth 0 (args w) [].

(** The events of such a run before the copy starts. *)
Definition target_events (w : world) : list event :=
  let d := destination w in
  (if dir_exists w then [Say (WarnExists d); Ask; Say Blank] else [MkdirP d])
  ++ [Say (TargetDirectory d); Say Sep].

(** Events that change the file system. *)
Definition is_effect (e : event) : bool :=
  match e with
  | MkdirP _ | Rsync _ | SedI _ _ _ => true
  | Say _ | Ask => false
  end.

Definition dq : ascii := "034".
Definition quoted (s : string) : text := dq :: txt s ++ [dq].
Definition json_field (k v : string) : text := quoted k ++ txt ": " ++ quoted v.

(** The manifest of the template, as far as the placeholders go. *)
Definition bundle_line : text :=
  txt "  " ++ json_field "bundleIdentifier" "com.javiso.lenmieexpotemplate".

Definition template_app_json : text :=
  txt "{" ++ [nl]
  ++ txt "  " ++ json_field "slug" "lenmie-expo-template" ++ txt "," ++ [nl]
  ++ bundle_line ++ [nl]
  ++ txt "}" ++ [nl].

(** What the run leaves of that manifest in the destination [taco-app]. *)
Definition taco_app_json : text :=
  txt "{" ++ [nl]
  ++ txt "  " ++ json_field "slug" "taco-app" ++ txt "," ++ [nl]
  ++ bundle_line ++ [nl]
  ++ txt "}" ++ [nl].

(** A fresh destination [taco-app]; every command succeeds; the template
    has an [app.json] and no [package.json]. *)
Definition w_taco : world :=
  World [txt "taco-app"] false [] 0 0 ∅
        {[ "app.json"%string := template_app_json ]}
        (fun _ _ => 0%Z) 0.

(** A destination without any letter or digit. *)
Definition w_underscores : world :=
  World [txt "___"] false [] 0 0 ∅
        {[ "app.json"%string := template_app_json ]}
        (fun _ _ => 0%Z) 0.

(** The same, but sed fails on every file. *)
Definition w_sed_fails : world :=
  World [txt "taco-app"] false [] 0 0 ∅
        {[ "app.json"%string := template_app_json ]}
        (fun _ _ => 1%Z) 0.

(** The same, but rsync fails and leaves nothing behind. *)
Definition w_copy_fails : world :=
  World [txt "taco-app"] false [] 0 23 ∅ ∅ (fun _ _ => 0%Z) 0.

(** The destination exists and the operator answers [n]. *)
Definition w_declined : world :=
  World [txt "taco-app"] true (txt "n") 0 0
        {[ "app.json"%string := txt "{}" ]}
        {[ "app.json"%string := template_app_json ]}
        (fun _ _ => 0%Z) 0.

(** A command that never leaves the script, keeps the set of files of the
    destination, and adds only events that satisfy [P]. *)
Definition steady (P : event -> Prop) (m : sh unit) : Prop :=
  forall st, exists st' evs,
    m st = (Next (), st')
    /\ dom (fs st') = dom (fs st)
    /\ out st' = evs ++ out st
    /\ Forall P evs.

(** The events of the loop body for the file [f]. *)
Definition about (f : string) (e : event) : Prop :=
  match e with
  | Say (Processing g) | Say (WarnFailed g) | Say (WarnNotFound g) => g = f
  | SedI g _ _ => g = f
  | _ => False
  end.

(** The loop body after its first substitution. *)
Definition after_first_sed (w : world) (slug : text) (f : string) : sh unit :=
  if_then (String.eqb f "app.json")
    (sed_i w f (PLACEHOLDER_BUNDLE_ID_PREFIX ++ PLACEHOLDER_SLUG_APP_JSON)
               (PLACEHOLDER_BUNDLE_ID_PREFIX ++ slug));;
  s ← get_status;
  if_then (negb (s =? 0)%Z) (echo w (WarnFailed f)).

(** ** The rewrite loop in closed form *)

(** The two substitutions of the loop body. *)
Definition BUNDLE_PATTERN : text :=
  PLACEHOLDER_BUNDLE_ID_PREFIX ++ PLACEHOLDER_SLUG_APP_JSON.
Definition bundle_id (slug : text) : text := PLACEHOLDER_BUNDLE_ID_PREFIX ++ slug.

(** Status of one sed call, and what it leaves of the destination. *)
Definition sed_code (w : world) (f : string) (pat rep : text) : Z :=
  if existsb is_nl rep then 1%Z else sed_status w f pat.

Definition sed_fs (w : world) (f : string) (pat rep : text)
    (m : gmap string text) : gmap string text :=
  if (sed_code w f pat rep =? 0)%Z then alter (sed_s (re_plain pat rep)) f m else m.

(** One turn of the loop: the files it leaves and the events it adds. *)
Definition file_fs (w : world) (slug : text) (f : string)
    (m : gmap string text) : gmap string text :=
  match m !! f with
  | None => m
  | Some _ =>
      let m1 := sed_fs w f PLACEHOLDER_SLUG_APP_JSON slug m in
      if String.eqb f "app.json" then sed_fs w f BUNDLE_PATTERN (bundle_id slug) m1 else m1
  end.

Definition file_events (w : world) (slug : text) (f : string)
    (m : gmap string text) : list event :=
  match m !! f with
  | None => [Say (WarnNotFound f)]
  | Some _ =>
      [Say (Processing f); SedI f PLACEHOLDER_SLUG_APP_JSON slug]
      ++ (if String.eqb f "app.json" then
            SedI f BUNDLE_PATTERN (bundle_id slug)
            :: (if (sed_code w f BUNDLE_PATTERN (bundle_id slug) =? 0)%Z then []
                else [Say (WarnFailed f)])
          else [])
  end.

Fixpoint loop_fs (w : world) (slug : text) (files : list string)
    (m : gmap string text) : gmap string text :=
  match files with
  | [] => m
  | f :: rest => loop_fs w slug rest (file_fs w slug f m)
  end.

Fixpoint loop_events (w : world) (slug : text) (files : list string)
    (m : gmap string text) : list event :=
  match files with
  | [] => []
  | f :: rest => file_events w slug f m ++ loop_events w slug rest (file_fs w slug f m)
  end.

(** The slug of a run, and the events of its steps 3 to 5 when the copy
    succeeds. *)
Definition slug_of (w : world) : text := APP_SLUG (BASENAME (destination w)).

Definition copy_events (w : world) : list event :=
  [Say Copying; Rsync (destination w); Say (Copied (destination w)); Say Sep].

Definition derive_events (w : world) : list event :=
  [Say (DerivedName (APP_NAME (slug_of w))); Say (DerivedSlug (slug_of w));
   Say Sep; Say Replacing].

Definition report_events (w : world) : list event :=
  Say Sep ::
  (if (echo_status w =? 0)%Z then
     [Say ReplacedOk; Say SetupComplete; Say NextSteps; Say (StepCd (destination w));
      Say StepInstall; Say StepGitInit]
   else [Say ReplaceError]).

(** What [s/(^|-)([a-z])/\U\2/g] does to a line, told by structural
    recursion: [up] says that the line begins here or that the hyphen before
    was part of a match. *)
Fixpoint initials (up : bool) (l : text) : text :=
  match l with
  | [] => []
  | c :: r =>
      if up && is_lower c then to_upper c :: initials false r
      else if is_hyphen c then
        match r with
        | d :: _ => if is_lower d then initials true r else c :: initials false r
        | [] => [c]
        end
      else c :: initials false r
  end.

Definition is_space (c : ascii) : bool := Ascii.eqb c " ".

(** The pattern [pat] matches somewhere in [t]. *)
Fixpoint occurs (pat t : text) : bool :=
  bre_prefix pat t ||
  match t with
  | [] => false
  | _ :: r => occurs pat r
  end.

(** More worlds: no argument at all; [mkdir] fails; the destination exists
    and the operator answers [y]; the destination's name has two lines. *)
Definition w_no_args : world :=
  World [] false [] 0 0 {[ "app.json"%string := txt "{}" ]} ∅ (fun _ _ => 0%Z) 0.

Definition w_mkdir_fails : world :=
  World [txt "/proc/taco-app"] false [] 1 0 ∅ ∅ (fun _ _ => 0%Z) 0.

Definition w_confirmed : world :=
  World [txt "taco-app"] true (txt "y") 0 0
        {[ "app.json"%string := txt "{}" ]}
        {[ "app.json"%string := template_app_json;
           "package.json"%string := txt "{ " ++ json_field "name" "lenmie-expo-template" ++ txt " }" ++ [nl];
           "App.tsx"%string := txt "export default App;" ++ [nl] ]}
        (fun _ _ => 0%Z) 0.

Definition w_two_lines : world :=
  World ["a" :: nl :: txt "b"] false [] 0 0 ∅
        {[ "app.json"%string := template_app_json ]}
        (fun _ _ => 0%Z) 0.

(** ** The pipelines on a few inputs *)

Example slug_squeezes_and_trims : APP_SLUG (txt "--a--b__c--") = txt "a-b-c".
Proof. reflexivity. Qed.

Example slug_of_echo_option : APP_SLUG (BASENAME (txt "./-n")) = [].
Proof. reflexivity. Qed.

Example slug_of_plain_dash_word : APP_SLUG (BASENAME (txt "./-x")) = txt "x".
Proof. reflexivity. Qed.

Example name_with_digit_segment : APP_NAME (txt "my-2nd-app") = txt "My 2ndApp".
Proof. reflexivity. Qed.

Example basename_trailing_slashes : BASENAME (txt "/a/b//") = txt "b".
Proof. reflexivity. Qed.

Example basename_of_root : BASENAME (txt "///") = txt "/".
Proof. reflexivity. Qed.

Example spec_name_of_slug : spec_display_name (txt "new-awesome-app") = txt "New Awesome App".
Proof. reflexivity. Qed.

(** ** Bytes *)

Ltac each_byte c :=
  destruct c as [[|] [|] [|] [|] [|] [|] [|] [|]]; vm_compute; try reflexivity; try discriminate.

Lemma is_nl_eq c : is_nl c = true <-> c = nl.
Proof. unfold is_nl. apply Ascii.eqb_eq. Qed.

Lemma is_hyphen_eq c : is_hyphen c = true <-> c = "-".
Proof. unfold is_hyphen. apply Ascii.eqb_eq. Qed.

Lemma alnum_not_hyphen c : is_alnum c = true -> is_hyphen c = false.
Proof. intros H; revert H. each_byte c. Qed.

Lemma alnum_not_nl c : is_alnum c = true -> is_nl c = false.
Proof. intros H; revert H. each_byte c. Qed.

Lemma alnum_to_lower c : is_alnum c = true -> to_lower c = c.
Proof. intros H; revert H. each_byte c. Qed.

Lemma to_lower_nl c : is_nl (to_lower c) = is_nl c.
Proof. each_byte c. Qed.

Lemma hyphen_not_nl c : is_hyphen c = true -> is_nl c = false.
Proof. intros ->%is_hyphen_eq. reflexivity. Qed.

(** ** Stripping a suffix *)

Section Rstrip.
Variable p : ascii -> bool.

Lemma rstrip_all l : forallb p l = true -> rstrip p l = [].
Proof.
  induction l as [|c r IH]; simpl; [done|].
  intros [Hc Hr]%andb_prop. rewrite (IH Hr), Hc. done.
Qed.

Lemma rstrip_nil_all l : rstrip p l = [] -> forallb p l = true.
Proof.
  induction l as [|c r IH]; simpl; [done|].
  destruct (rstrip p r) eqn:E; [|done].
  destruct (p c); [intros _; by rewrite IH | done].
Qed.

(** The text is what is kept followed by bytes that satisfy [p]. *)
Lemma rstrip_split l :
  exists s, l = rstrip p l ++ s /\ forallb p s = true.
Proof.
  induction l as [|c r (s & Hs & Hp)]; simpl.
  - by exists [].
  - destruct (rstrip p r) eqn:E.
    + destruct (p c) eqn:Hc.
      * exists (c :: r). split; [done|]. simpl. rewrite Hc. simpl.
        apply rstrip_nil_all, E.
      * exists s. split; [|done]. simpl in Hs. by subst r.
    + exists s. split; [|done]. simpl in *. congruence.
Qed.

Lemma rstrip_app_keep l s :
  forallb p s = true -> rstrip p (l ++ s) = rstrip p l.
Proof.
  intros Hs. induction l as [|c r IH]; simpl.
  - by apply rstrip_all.
  - by rewrite IH.
Qed.

Lemma rstrip_idem l : rstrip p (rstrip p l) = rstrip p l.
Proof.
  induction l as [|c r IH]; simpl; [done|].
  destruct (rstrip p r) as [|d r'] eqn:E.
  - destruct (p c) eqn:Hc; simpl; [done|]. by rewrite Hc.
  - change (rstrip p (c :: d :: r')) with
      (match rstrip p (d :: r') with [] => if p c then [] else [c] | x => c :: x end).
    rewrite IH. done.
Qed.

Lemma rstrip_free l : forallb (fun c => negb (p c)) l = true -> rstrip p l = l.
Proof.
  induction l as [|c r IH]; simpl; [done|].
  intros [Hc Hr]%andb_prop. rewrite (IH Hr).
  destruct r; [|done]. by destruct (p c).
Qed.

Lemma rstrip_head l c r : rstrip p l = c :: r -> exists r', l = c :: r'.
Proof.
  destruct (rstrip_split l) as (s & Hs & _). intros E. rewrite E in Hs.
  exists (r ++ s). done.
Qed.
End Rstrip.

(** ** Substitution on one line *)

Lemma span_len_all p l : span_len p l = length l <-> forallb p l = true.
Proof.
  induction l as [|c r IH]; simpl; [done|].
  destruct (p c); simpl; [|done].
  rewrite <- IH. split; congruence.
Qed.

Lemma rstrip_cons_keep p c r : p c = false -> rstrip p (c :: r) = c :: rstrip p r.
Proof. intros Hc. simpl. rewrite Hc. by destruct (rstrip p r). Qed.

Section Gsub.
Variable m : matcher.

Lemma gsub_drop k l : gsub m k false l = gsub m 0 false (drop k l).
Proof.
  revert l. induction k as [|k IH]; intros l; [reflexivity|].
  destruct l as [|c r]; [done|]. simpl. apply IH.
Qed.

Lemma gsub_hit bol c r n rep :
  m bol (c :: r) = Some (S n, rep) ->
  gsub m 0 bol (c :: r) = rep ++ gsub m 0 false (drop n r).
Proof. intros H. simpl. rewrite H. by rewrite gsub_drop. Qed.

Lemma gsub_miss bol c r :
  m bol (c :: r) = None ->
  gsub m 0 bol (c :: r) = c :: gsub m 0 false r.
Proof. intros H. simpl. by rewrite H. Qed.
End Gsub.

(** [s/[^a-z0-9]+/-/g] is [squeeze]. *)
Lemma squeeze_run r :
  squeeze true r = squeeze false (drop (span_len non_alnum r) r).
Proof.
  induction r as [|d r IH]; [done|].
  unfold non_alnum in *. simpl. destruct (is_alnum d) eqn:Hd; simpl.
  - by rewrite Hd.
  - apply IH.
Qed.

Lemma gsub_squeeze bol l : gsub re_non_alnum_run 0 bol l = squeeze false l.
Proof.
  remember (length l) as n eqn:Hn. revert bol l Hn.
  induction n as [n IH] using lt_wf_ind. intros bol [|c r] Hn; [done|].
  simpl in Hn. destruct (is_alnum c) eqn:Hc.
  - rewrite gsub_miss.
    + simpl. rewrite Hc. f_equal. apply (IH (length r)); [lia | done].
    + unfold re_non_alnum_run, non_alnum. simpl. by rewrite Hc.
  - rewrite (gsub_hit _ _ _ _ (span_len non_alnum r) ["-"]).
    + simpl. rewrite Hc, squeeze_run. f_equal.
      apply (IH (length (drop (span_len non_alnum r) r))); [|done].
      rewrite length_drop. lia.
    + unfold re_non_alnum_run, non_alnum. simpl. by rewrite Hc.
Qed.

(** [s/^-+|-+$//g] drops the hyphens at both ends of the line. *)
Lemma gsub_edge_inner l : gsub re_edge_hyphens 0 false l = rstrip is_hyphen l.
Proof.
  induction l as [|c r IH]; [done|].
  destruct (is_hyphen c) eqn:Hc.
  - destruct (forallb is_hyphen r) eqn:Hall.
    + rewrite (gsub_hit _ _ _ _ (span_len is_hyphen r) []).
      * apply span_len_all in Hall as Hlen. rewrite Hlen, drop_all. simpl.
        by rewrite (rstrip_all _ _ Hall), Hc.
      * unfold re_edge_hyphens. simpl. rewrite Hc.
        apply span_len_all in Hall as ->. by rewrite Nat.eqb_refl.
    + rewrite gsub_miss.
      * rewrite IH. simpl. destruct (rstrip is_hyphen r) eqn:E; [|done].
        apply rstrip_nil_all in E. congruence.
      * unfold re_edge_hyphens. simpl. rewrite Hc. simpl.
        destruct (Nat.eqb_spec (span_len is_hyphen r) (length r)) as [E|]; [|done].
        apply span_len_all in E. congruence.
  - rewrite gsub_miss, IH; [by rewrite rstrip_cons_keep|].
    unfold re_edge_hyphens. simpl. by rewrite Hc.
Qed.

Lemma gsub_edge_bol l :
  gsub re_edge_hyphens 0 true l
  = rstrip is_hyphen (drop (span_len is_hyphen l) l).
Proof.
  destruct l as [|c r]; [done|].
  destruct (is_hyphen c) eqn:Hc.
  - rewrite (gsub_hit _ _ _ _ (span_len is_hyphen r) []).
    + simpl. rewrite Hc. simpl. apply gsub_edge_inner.
    + unfold re_edge_hyphens. simpl. by rewrite Hc.
  - rewrite gsub_miss, gsub_edge_inner.
    + simpl span_len. rewrite Hc. change (drop 0 (c :: r)) with (c :: r).
      by rewrite rstrip_cons_keep.
    + unfold re_edge_hyphens. simpl. by rewrite Hc.
Qed.

(** ** Lines in slug form *)

Lemma loose_weaken b l : loose b l = true -> loose false l = true.
Proof.
  destruct l as [|c r]; simpl; [done|].
  destruct (is_alnum c); [done|]. destruct b; [|done].
  by rewrite andb_false_r.
Qed.

Lemma loose_squeeze b l : loose b (squeeze b l) = true.
Proof.
  revert b. induction l as [|c r IH]; intros b; simpl; [done|].
  destruct (is_alnum c) eqn:Hc; simpl.
  - by rewrite Hc.
  - destruct b; [apply IH|]. simpl. apply IH.
Qed.

Lemma loose_squeeze_id b l : loose b l = true -> squeeze b l = l.
Proof.
  revert b. induction l as [|c r IH]; intros b; simpl; [done|].
  destruct (is_alnum c); [intros H; by rewrite IH|].
  intros [[Hh Hb]%andb_prop Hr]%andb_prop. apply is_hyphen_eq in Hh as ->.
  destruct b; [done|]. by rewrite IH.
Qed.

Lemma loose_bytes b l c :
  loose b l = true -> c ∈ l -> is_alnum c = true \/ c = "-".
Proof.
  revert b. induction l as [|d r IH]; intros b H Hin.
  - by apply elem_of_nil in Hin.
  - simpl in H. apply elem_of_cons in Hin as [->|Hin].
    + destruct (is_alnum d); [by left|].
      apply andb_prop in H as [[Hh _]%andb_prop _]. right. by apply is_hyphen_eq.
    + destruct (is_alnum d); [by apply (IH false)|].
      apply andb_prop in H as [_ Hr]. by apply (IH true).
Qed.

Lemma loose_to_lower b l : loose b l = true -> tr_lower l = l.
Proof.
  revert b. unfold tr_lower. induction l as [|c r IH]; intros b; simpl; [done|].
  destruct (is_alnum c) eqn:Hc.
  - intros H. by rewrite (alnum_to_lower _ Hc), (IH _ H).
  - intros [[Hh _]%andb_prop Hr]%andb_prop. apply is_hyphen_eq in Hh as ->.
    by rewrite (IH _ Hr).
Qed.

Lemma loose_no_nl b l : loose b l = true -> forallb (fun c => negb (is_nl c)) l = true.
Proof.
  revert b. induction l as [|c r IH]; intros b; simpl; [done|].
  destruct (is_alnum c) eqn:Hc.
  - intros H. by rewrite (alnum_not_nl _ Hc), (IH _ H).
  - intros [[Hh _]%andb_prop Hr]%andb_prop.
    by rewrite (hyphen_not_nl _ Hh), (IH _ Hr).
Qed.

Lemma loose_head l : loose true l = true -> span_len is_hyphen l = 0.
Proof.
  destruct l as [|c r]; simpl; [done|].
  destruct (is_alnum c) eqn:Hc; [by rewrite alnum_not_hyphen|].
  by rewrite andb_false_r.
Qed.

Lemma loose_lstrip l :
  loose false l = true -> loose true (drop (span_len is_hyphen l) l) = true.
Proof.
  destruct l as [|c r]; simpl; [done|].
  destruct (is_alnum c) eqn:Hc.
  - rewrite alnum_not_hyphen by done. simpl. by rewrite Hc.
  - intros [[Hh _]%andb_prop Hr]%andb_prop. rewrite Hh. simpl.
    by rewrite (loose_head _ Hr), drop_0.
Qed.

Lemma loose_rstrip p b l : loose b l = true -> loose b (rstrip p l) = true.
Proof.
  revert b. induction l as [|c r IH]; intros b; simpl; [done|].
  destruct (is_alnum c) eqn:Hc.
  - intros H. apply IH in H. destruct (rstrip p r) eqn:E.
    + destruct (p c); simpl; [done|]. by rewrite Hc.
    + simpl. by rewrite Hc.
  - intros [Hh Hr]%andb_prop. apply IH in Hr. destruct (rstrip p r) eqn:E.
    + destruct (p c); simpl; [done|]. rewrite Hc, Hh. done.
    + simpl. rewrite Hc, Hh. done.
Qed.

Lemma slug_line_form l : slug_form (slug_line l).
Proof.
  unfold slug_line, slug_form. rewrite gsub_squeeze, gsub_edge_bol. split.
  - apply loose_rstrip, loose_lstrip, loose_squeeze.
  - apply rstrip_idem.
Qed.

Lemma slug_line_fixed l : slug_form l -> slug_line l = l.
Proof.
  intros [Hl Hr]. unfold slug_line.
  rewrite (loose_to_lower _ _ Hl), gsub_squeeze, gsub_edge_bol.
  rewrite (loose_squeeze_id false) by (by eapply loose_weaken).
  by rewrite (loose_head _ Hl), drop_0.
Qed.

(** ** sed over the lines of a text *)

Lemma lines_not_nil t : lines t <> [].
Proof. destruct t as [|c r]; simpl; [done|]. destruct (is_nl c); [done|]. by destruct (lines r). Qed.

Lemma lines_one_line l : one_line l -> lines l = [l].
Proof.
  unfold one_line. induction l as [|c r IH]; simpl; [done|].
  intros [Hc Hr]%andb_prop. apply negb_true_iff in Hc. by rewrite Hc, IH.
Qed.

Lemma lines_cons l r : one_line l -> lines (l ++ nl :: r) = l :: lines r.
Proof.
  unfold one_line. induction l as [|c l IH]; simpl; [done|].
  intros [Hc Hr]%andb_prop. apply negb_true_iff in Hc. by rewrite Hc, IH.
Qed.

Lemma sed_s_one_line m l : one_line l -> sed_s m l = gsub m 0 true l.
Proof. intros H. unfold sed_s. rewrite lines_one_line by done. by destruct l. Qed.

Lemma sed_s_cons m l r :
  one_line l -> sed_s m (l ++ nl :: r) = gsub m 0 true l ++ nl :: sed_s m r.
Proof.
  intros H. unfold sed_s. rewrite lines_cons by done.
  pose proof (lines_not_nil r). simpl. by destruct (lines r).
Qed.

(** A text is one line, or a first line, a newline and a shorter text. *)
Lemma text_split t :
  one_line t \/ exists l r, one_line l /\ t = l ++ nl :: r /\ length r < length t.
Proof.
  unfold one_line. induction t as [|c t IH]; [by left|].
  destruct (is_nl c) eqn:Hc.
  - right. exists [], t. apply is_nl_eq in Hc as ->. simpl. split_and!; [done..|lia].
  - destruct IH as [H|(l & r & Hl & -> & Hlen)].
    + left. simpl. by rewrite Hc.
    + right. exists (c :: l), r. simpl. rewrite Hc. split_and!; [done..|lia].
Qed.

Lemma text_lines_ind (P : text -> Prop) :
  (forall l, one_line l -> P l) ->
  (forall l r, one_line l -> P r -> P (l ++ nl :: r)) ->
  forall t, P t.
Proof.
  intros H1 H2 t. remember (length t) as n eqn:Hn. revert t Hn.
  induction n as [n IH] using lt_wf_ind. intros t ->.
  destruct (text_split t) as [H|(l & r & Hl & -> & Hlen)]; [by apply H1|].
  apply H2; [done|]. by apply (IH (length r)).
Qed.

Lemma one_line_tr_lower l : one_line l -> one_line (tr_lower l).
Proof.
  unfold one_line, tr_lower. induction l as [|c r IH]; simpl; [done|].
  intros [Hc Hr]%andb_prop. by rewrite to_lower_nl, Hc, IH.
Qed.

Lemma one_line_squeeze l : one_line (gsub re_non_alnum_run 0 true l).
Proof. rewrite gsub_squeeze. eapply loose_no_nl, loose_squeeze. Qed.

Lemma one_line_slug_line l : one_line (slug_line l).
Proof. destruct (slug_line_form l) as [H _]. by eapply loose_no_nl. Qed.

Lemma tr_lower_cons l r : tr_lower (l ++ nl :: r) = tr_lower l ++ nl :: tr_lower r.
Proof. unfold tr_lower. by rewrite map_app. Qed.

(** ** The slug pipeline, line by line *)

Lemma slug_filter_one_line l : one_line l -> slug_filter l = slug_line l.
Proof.
  intros H. unfold slug_filter, slug_line.
  rewrite (sed_s_one_line _ (tr_lower l)) by by apply one_line_tr_lower.
  by rewrite sed_s_one_line by apply one_line_squeeze.
Qed.

Lemma slug_filter_cons l r :
  one_line l -> slug_filter (l ++ nl :: r) = slug_line l ++ nl :: slug_filter r.
Proof.
  intros H. unfold slug_filter, slug_line.
  rewrite tr_lower_cons, sed_s_cons by by apply one_line_tr_lower.
  by rewrite sed_s_cons by apply one_line_squeeze.
Qed.

Lemma slug_filter_snoc t : slug_filter (t ++ [nl]) = slug_filter t ++ [nl].
Proof.
  induction t as [l Hl|l r Hl IH] using text_lines_ind.
  - rewrite slug_filter_cons, (slug_filter_one_line l) by done. reflexivity.
  - rewrite <- app_assoc, <- app_comm_cons.
    rewrite (slug_filter_cons l r), (slug_filter_cons l (r ++ [nl])), IH by done.
    by rewrite <- app_assoc.
Qed.

Lemma slug_filter_idem t : slug_filter (slug_filter t) = slug_filter t.
Proof.
  induction t as [l Hl|l r Hl IH] using text_lines_ind.
  - rewrite (slug_filter_one_line l) by done.
    rewrite slug_filter_one_line by apply one_line_slug_line.
    apply slug_line_fixed, slug_line_form.
  - rewrite (slug_filter_cons l r) by done.
    rewrite slug_filter_cons, IH by apply one_line_slug_line.
    by rewrite (slug_line_fixed _ (slug_line_form l)).
Qed.

(** The filtered text never begins with a hyphen. *)
Lemma slug_filter_head t c r : slug_filter t = c :: r -> is_hyphen c = false.
Proof.
  destruct (text_split t) as [H|(l & r' & Hl & -> & _)].
  - rewrite slug_filter_one_line by done. intros E.
    destruct (slug_line_form t) as [Hf _]. rewrite E in Hf.
    apply loose_head in Hf. simpl in Hf. by destruct (is_hyphen c).
  - rewrite slug_filter_cons by done.
    destruct (slug_line_form l) as [Hf _]. destruct (slug_line l) as [|d q].
    + by intros [= <- _].
    + intros [= <- _]. apply loose_head in Hf. simpl in Hf. by destruct (is_hyphen d).
Qed.

Lemma forallb_nl_repeat s : forallb is_nl s = true -> s = repeat nl (length s).
Proof.
  induction s as [|c s IH]; simpl; [done|].
  intros [Hc Hs]%andb_prop. apply is_nl_eq in Hc as ->. by rewrite <- IH.
Qed.

Lemma slug_filter_newlines t n :
  slug_filter (t ++ repeat nl n) = slug_filter t ++ repeat nl n.
Proof.
  revert t. induction n as [|n IH]; intros t; simpl; [by rewrite !app_nil_r|].
  rewrite (cons_middle nl), !app_assoc, IH, slug_filter_snoc.
  by rewrite <- app_assoc.
Qed.

(** A fixed point of the filters stays one when [$(...)] strips it. *)
Lemma slug_filter_strip t :
  slug_filter t = t -> slug_filter (strip_nl t) = strip_nl t.
Proof.
  intros Hfix. unfold strip_nl.
  destruct (rstrip_split is_nl t) as (s & Hs & Hp).
  apply forallb_nl_repeat in Hp. rewrite Hp in Hs.
  rewrite Hs in Hfix at 1. rewrite slug_filter_newlines in Hfix.
  rewrite Hs in Hfix at 2. by apply app_inv_tail in Hfix.
Qed.

Lemma echo_option_head l : echo_option l = true -> exists r, l = "-" :: r.
Proof.
  destruct l as [|c [|d r]]; simpl; [done..|].
  intros [->%is_hyphen_eq _]%andb_prop. eauto.
Qed.

(** The slug is empty for an option word of [echo], and otherwise the
    filtered basename without its trailing newlines. *)
Lemma APP_SLUG_eq b :
  APP_SLUG b = if echo_option b then [] else strip_nl (slug_filter b).
Proof.
  unfold APP_SLUG, echo_out. destruct (echo_option b).
  - by destruct (existsb _ b).
  - change (strip_nl (slug_filter (b ++ [nl])) = strip_nl (slug_filter b)).
    rewrite slug_filter_snoc. unfold strip_nl. by rewrite rstrip_app_keep.
Qed.

(** ** The derived slug *)

Lemma slug_form_not_option l : slug_form l -> echo_option l = false.
Proof.
  intros [Hl _]. destruct (echo_option l) eqn:E; [|done].
  apply echo_option_head in E as [r ->]. by apply loose_head in Hl.
Qed.

Lemma slug_form_one_line l : slug_form l -> one_line l.
Proof. intros [Hl _]. by eapply loose_no_nl. Qed.

(** A text in slug form goes through the derivation unchanged. *)
Lemma APP_SLUG_fixed B : slug_form B -> APP_SLUG B = B.
Proof.
  intros HB. rewrite APP_SLUG_eq, (slug_form_not_option _ HB).
  rewrite slug_filter_one_line by by apply slug_form_one_line.
  rewrite (slug_line_fixed _ HB). apply rstrip_free, slug_form_one_line, HB.
Qed.

(** For a basename of one line the slug has slug form. *)
Lemma APP_SLUG_form B : one_line B -> slug_form (APP_SLUG B).
Proof.
  intros HB. rewrite APP_SLUG_eq. destruct (echo_option B); [done|].
  rewrite slug_filter_one_line by done. unfold strip_nl.
  rewrite rstrip_free by apply one_line_slug_line. apply slug_line_form.
Qed.

Lemma rstrip_length p l : length (rstrip p l) <= length l.
Proof.
  destruct (rstrip_split p l) as (s & Hs & _).
  rewrite Hs at 2. rewrite length_app. lia.
Qed.

Lemma rstrip_last p l c : rstrip p l = l -> last l = Some c -> p c = false.
Proof.
  intros Hfix [l' ->]%last_Some. destruct (p c) eqn:Hc; [|done].
  rewrite rstrip_app_keep in Hfix by (simpl; by rewrite Hc).
  pose proof (rstrip_length p l') as Hlen. rewrite Hfix, length_app in Hlen.
  simpl in Hlen. lia.
Qed.

(** Slug form, as the claims word it: lowercase letters, digits and hyphens
    only, and no hyphen first or last. *)
Lemma slug_form_bytes l :
  slug_form l ->
  (forall c, c ∈ l -> is_lower c = true \/ is_digit c = true \/ c = "-")
  /\ head l <> Some "-" /\ last l <> Some "-".
Proof.
  intros [Hl Hr]. split_and!.
  - intros c Hc. destruct (loose_bytes _ _ _ Hl Hc) as [H| ->]; [|by auto].
    unfold is_alnum in H. apply orb_prop in H as []; auto.
  - apply loose_head in Hl. by destruct l as [|c r]; [|intros [= ->]].
  - intros H. by apply (rstrip_last _ _ _ Hr) in H.
Qed.


Lemma rstrip_snoc_keep p l c : p c = false -> rstrip p (l ++ [c]) = l ++ [c].
Proof.
  intros Hc. induction l as [|a l IH]; simpl; [by rewrite Hc|].
  rewrite IH. by destruct l.
Qed.

Lemma rstrip_fixed_iff p l :
  rstrip p l = l <-> (forall c, last l = Some c -> p c = false).
Proof.
  split; [intros H c; by apply rstrip_last|].
  intros H. destruct l as [|a l] using rev_ind; [done|].
  apply rstrip_snoc_keep, H. by rewrite last_snoc.
Qed.


(** For every basename without newline the slug consists of lowercase
    letters, digits and hyphens, and neither begins nor ends with a hyphen. *)
Theorem APP_SLUG_one_line_bytes B :
  one_line B ->
  (forall c, c ∈ APP_SLUG B -> is_lower c = true \/ is_digit c = true \/ c = "-")
  /\ head (APP_SLUG B) <> Some "-" /\ last (APP_SLUG B) <> Some "-".
Proof. intros HB. by apply slug_form_bytes, APP_SLUG_form. Qed.

(** C3, at a basename of two lines: sed filters line by line, so the
    newline inside the basename is neither replaced by a hyphen nor removed,
    and the slug holds a byte that is no lowercase letter, digit or hyphen. *)
Theorem APP_SLUG_keeps_inner_newline :
  APP_SLUG ("a" :: nl :: txt "b") = "a" :: nl :: txt "b"
  /\ nl ∈ APP_SLUG ("a" :: nl :: txt "b")
  /\ is_lower nl = false /\ is_digit nl = false /\ nl <> "-".
Proof.
  split_and!; [done| |done..].
  change (nl ∈ "a" :: nl :: txt "b"). apply list_elem_of_further, list_elem_of_here.
Qed.

(** C4: deriving the slug is idempotent, [slug (slug B) = slug B] for every
    basename [B], and a basename already in slug form is its own slug. *)
Theorem APP_SLUG_idempotent B :
  APP_SLUG (APP_SLUG B) = APP_SLUG B /\ (slug_form B -> APP_SLUG B = B).
Proof.
  split; [|apply APP_SLUG_fixed].
  rewrite (APP_SLUG_eq B). destruct (echo_option B); [done|].
  set (S := strip_nl (slug_filter B)). rewrite APP_SLUG_eq.
  assert (echo_option S = false) as ->.
  { destruct (echo_option S) eqn:E; [|done].
    apply echo_option_head in E as [r Hr].
    apply rstrip_head in Hr as [r' Hr']. by apply slug_filter_head in Hr'. }
  subst S. rewrite (slug_filter_strip _ (slug_filter_idem B)).
  apply rstrip_idem.
Qed.

Lemma APP_SLUG_idempotent_witness :
  slug_form (txt "my-cool-app")
  /\ APP_SLUG (txt "my-cool-app") = txt "my-cool-app"
  /\ APP_SLUG (APP_SLUG (txt "My_Cool App!!")) = APP_SLUG (txt "My_Cool App!!").
Proof.
  assert (slug_form (txt "my-cool-app")) as H by (split; reflexivity).
  split_and!.
  - exact H.
  - exact (proj2 (APP_SLUG_idempotent (txt "my-cool-app")) H).
  - exact (proj1 (APP_SLUG_idempotent (txt "My_Cool App!!"))).
Defined.

(** ** The derived display name *)

(** [tr '-' ' '] leaves no hyphen in the display name. *)
Lemma APP_NAME_no_hyphen s c : c ∈ APP_NAME s -> c <> "-".
Proof.
  unfold APP_NAME, strip_nl. intros Hin.
  destruct (rstrip_split is_nl (tr_hyphen_space (sed_s re_word_initial (echo_out s))))
    as (q & Hq & _).
  assert (c ∈ tr_hyphen_space (sed_s re_word_initial (echo_out s))) as Hc.
  { rewrite Hq. apply elem_of_app. by left. }
  unfold tr_hyphen_space in Hc. apply list_elem_of_fmap in Hc as (d & -> & _).
  unfold hyphen_to_space. destruct (is_hyphen d) eqn:Hd; [done|].
  intros E. rewrite <- is_hyphen_eq in E. congruence.
Qed.

(** C5, at the slug of [new-awesome-app]: the replacement [\U\2] puts the
    letter back in upper case but not the hyphen before it, so [tr] finds no
    hyphen to turn into a space and the words are run together. *)
Theorem APP_NAME_runs_words_together :
  APP_NAME (APP_SLUG (txt "new-awesome-app")) = txt "NewAwesomeApp"
  /\ spec_display_name (APP_SLUG (txt "new-awesome-app")) = txt "New Awesome App"
  /\ APP_NAME (APP_SLUG (txt "new-awesome-app"))
     <> spec_display_name (APP_SLUG (txt "new-awesome-app")).
Proof. split_and!; [reflexivity..|discriminate]. Qed.

(** C6, the documented examples: the slugs are the documented ones, the
    basename [___] gives an empty slug and an empty display name, with which
    the run goes on to its end, and the display names of the two other
    examples come out without their spaces. *)
Theorem documented_examples :
  APP_SLUG (BASENAME (txt "../new-awesome-app")) = txt "new-awesome-app"
  /\ APP_NAME (APP_SLUG (BASENAME (txt "../new-awesome-app"))) = txt "NewAwesomeApp"
  /\ APP_SLUG (BASENAME (txt "My_Cool App!!")) = txt "my-cool-app"
  /\ APP_NAME (APP_SLUG (BASENAME (txt "My_Cool App!!"))) = txt "MyCoolApp"
  /\ APP_SLUG (BASENAME (txt "___")) = []
  /\ APP_NAME (APP_SLUG (BASENAME (txt "___"))) = []
  /\ exit_code w_underscores = 0%Z
  /\ In (SedI "app.json" PLACEHOLDER_SLUG_APP_JSON []) (trace w_underscores).
Proof. split_and!; [reflexivity..|]. vm_compute. tauto. Qed.

(** *** The display name of the specification *)

Lemma split_hyphen_not_nil l : split_hyphen l <> [].
Proof.
  destruct l as [|c r]; simpl; [done|].
  destruct (is_hyphen c); [done|]. by destruct (split_hyphen r).
Qed.

Lemma join_space_cons c l0 rest :
  join_space ((c :: l0) :: rest) = c :: join_space (l0 :: rest).
Proof. simpl. by destruct rest. Qed.

Lemma join_segments (start : bool) l :
  join_space
    match split_hyphen l with
    | l0 :: ls => (if start then capitalize l0 else l0) :: map capitalize ls
    | [] => []
    end
  = name_from start l.
Proof.
  revert start. induction l as [|c r IH]; intros start; [by destruct start|].
  simpl. pose proof (split_hyphen_not_nil r) as Hne. destruct (is_hyphen c).
  - rewrite <- (IH true). destruct (split_hyphen r) as [|l0 ls]; [done|].
    by destruct start.
  - rewrite <- (IH false). destruct (split_hyphen r) as [|l0 ls]; [done|].
    destruct start; simpl capitalize; apply join_space_cons.
Qed.

Lemma spec_display_name_bytes l : spec_display_name l = name_from true l.
Proof.
  rewrite <- join_segments. unfold spec_display_name.
  by destruct (split_hyphen l).
Qed.

Lemma alnum_upper_lower c : is_alnum c = true -> to_lower (to_upper c) = c.
Proof. intros H; revert H. each_byte c. Qed.

Lemma alnum_upper_plain c :
  is_alnum c = true -> is_hyphen (to_upper c) = false /\ is_nl (to_upper c) = false.
Proof. intros H; revert H. each_byte c; done. Qed.

Lemma name_from_lower b start l :
  loose b l = true -> tr_lower (name_from start l) = tr_hyphen_space l.
Proof.
  revert b start. induction l as [|c r IH]; intros b start; simpl; [done|].
  destruct (is_alnum c) eqn:Hc.
  - intros H. unfold hyphen_to_space. rewrite (alnum_not_hyphen _ Hc). simpl.
    rewrite (IH _ _ H). f_equal.
    destruct start; [by apply alnum_upper_lower|by apply alnum_to_lower].
  - intros [[Hh _]%andb_prop Hr]%andb_prop. unfold hyphen_to_space. rewrite Hh. simpl.
    by rewrite (IH _ _ Hr).
Qed.

Lemma squeeze_spaces b l : loose b l = true -> squeeze b (tr_hyphen_space l) = l.
Proof.
  revert b. induction l as [|c r IH]; intros b; simpl; [done|].
  unfold hyphen_to_space. destruct (is_alnum c) eqn:Hc.
  - intros H. rewrite (alnum_not_hyphen _ Hc), Hc. by rewrite (IH _ H).
  - intros [[Hh Hb]%andb_prop Hr]%andb_prop. rewrite Hh. simpl.
    apply is_hyphen_eq in Hh as ->. destruct b; [done|]. by rewrite (IH _ Hr).
Qed.

Lemma name_from_one_line b start l : loose b l = true -> one_line (name_from start l).
Proof.
  unfold one_line. revert b start. induction l as [|c r IH]; intros b start; simpl; [done|].
  destruct (is_alnum c) eqn:Hc.
  - intros H. rewrite (alnum_not_hyphen _ Hc). simpl. rewrite (IH _ _ H), andb_true_r.
    destruct start; [by rewrite (proj2 (alnum_upper_plain _ Hc))|by rewrite alnum_not_nl].
  - intros [[Hh _]%andb_prop Hr]%andb_prop. rewrite Hh. simpl. by apply (IH _ _ Hr).
Qed.

(** With the display name as the specification words it, the slug comes
    back: the round trip is lost in [APP_NAME] only. *)
Theorem spec_display_name_round_trip s :
  slug_form s -> APP_SLUG (spec_display_name s) = s.
Proof.
  intros Hs. destruct (Hs) as [Hl Hr]. rewrite spec_display_name_bytes, APP_SLUG_eq.
  assert (echo_option (name_from true s) = false) as ->.
  { destruct (echo_option _) eqn:E; [|done]. apply echo_option_head in E as [r E].
    destruct s as [|c q]; [done|]. simpl in Hl, E.
    destruct (is_alnum c) eqn:Hc; [|by rewrite andb_false_r in Hl].
    rewrite (alnum_not_hyphen _ Hc) in E. injection E as E _.
    apply alnum_upper_plain in Hc as [Hc _]. by rewrite E in Hc. }
  rewrite slug_filter_one_line by by eapply name_from_one_line.
  unfold slug_line. rewrite (name_from_lower _ _ _ Hl), gsub_squeeze.
  rewrite (squeeze_spaces false) by by eapply loose_weaken.
  rewrite gsub_edge_bol, (loose_head _ Hl). change (drop 0 s) with s. rewrite Hr.
  apply rstrip_free, slug_form_one_line, Hs.
Qed.

(** C10, at the slug [new-awesome-app]: the display name has lost the
    segment boundaries, and the slug derived from it is one segment. *)
Theorem slug_of_name_loses_hyphens :
  slug_form (txt "new-awesome-app")
  /\ APP_NAME (txt "new-awesome-app") = txt "NewAwesomeApp"
  /\ APP_SLUG (APP_NAME (txt "new-awesome-app")) = txt "newawesomeapp"
  /\ APP_SLUG (APP_NAME (txt "new-awesome-app")) <> txt "new-awesome-app".
Proof. split_and!; [by split|reflexivity..|discriminate]. Qed.

(** ** The script, step by step *)

Lemma bind_next {A B} (m : sh A) (f : A -> sh B) st a st' :
  m st = (Next a, st') -> (m ≫= f) st = f a st'.
Proof. intros H. unfold mbind, sh_bind. by rewrite H. Qed.

Lemma bind_exit {A B} (m : sh A) (f : A -> sh B) st c st' :
  m st = (Exit c, st') -> (m ≫= f) st = (Exit c, st').
Proof. intros H. unfold mbind, sh_bind. by rewrite H. Qed.

Ltac sh_unfold :=
  cbv beta iota zeta delta
    [check_arguments resolve_target copy_tree rewrite_placeholders report
     process_file for_each if_then echo read_reply mkdir_p rsync sed_i exit
     get_status set_status is_file mbind sh_bind mret sh_ret];
  cbn [fs out status].

Section Steps.
Variable w : world.
Implicit Types (st : state) (d : text).

Lemma check_arguments_ok st :
  length (args w) = 1 ->
  check_arguments w st = (Next (), State (fs st) (out st) 0).
Proof. intros H. sh_unfold. by rewrite H. Qed.

Lemma check_arguments_bad st :
  length (args w) <> 1 ->
  check_arguments w st
  = (Exit 1, State (fs st) (Say UsageExample :: Say Usage :: out st) (echo_status w)).
Proof. intros H%Nat.eqb_neq. sh_unfold. by rewrite H. Qed.

Lemma resolve_declined d st :
  dir_exists w = true -> affirmative (reply w) = false ->
  resolve_target w d st
  = (Exit 1, State (fs st)
               (Say Cancelled :: Say Blank :: Ask :: Say (WarnExists d) :: out st)
               (echo_status w)).
Proof. intros H1 H2. sh_unfold. by rewrite H1, H2. Qed.

Lemma resolve_confirmed d st :
  dir_exists w = true -> affirmative (reply w) = true ->
  resolve_target w d st
  = (Next (), State (fs st)
               (Say Sep :: Say (TargetDirectory d) :: Say Blank :: Ask
                :: Say (WarnExists d) :: out st)
               (echo_status w)).
Proof. intros H1 H2. sh_unfold. by rewrite H1, H2. Qed.

Lemma resolve_mkdir_failed d st :
  dir_exists w = false -> mkdir_status w <> 0%Z ->
  resolve_target w d st
  = (Exit 1, State (fs st) (Say (MkdirError d) :: MkdirP d :: out st) (echo_status w)).
Proof. intros H1 H2%Z.eqb_neq. sh_unfold. by rewrite H1, H2. Qed.

Lemma resolve_created d st :
  dir_exists w = false -> mkdir_status w = 0%Z ->
  resolve_target w d st
  = (Next (), State (fs st)
               (Say Sep :: Say (TargetDirectory d) :: MkdirP d :: out st)
               (echo_status w)).
Proof. intros H1 H2. sh_unfold. by rewrite H1, H2. Qed.

Lemma copy_failed d st :
  rsync_status w <> 0%Z ->
  copy_tree w d st
  = (Exit 1, State (rsync_dest w)
               (Say CopyError :: Rsync d :: Say Copying :: out st) (echo_status w)).
Proof. intros H%Z.eqb_neq. sh_unfold. by rewrite H. Qed.

Lemma copy_done d st :
  rsync_status w = 0%Z ->
  copy_tree w d st
  = (Next (), State (rsync_dest w)
               (Say Sep :: Say (Copied d) :: Rsync d :: Say Copying :: out st)
               (echo_status w)).
Proof. intros H. sh_unfold. by rewrite H. Qed.

(** The reporter looks at the status of the [echo] before it. *)
Lemma report_ok d st :
  echo_status w = 0%Z ->
  report w d st
  = (Next (), State (fs st)
               (Say StepGitInit :: Say StepInstall :: Say (StepCd d) :: Say NextSteps
                :: Say SetupComplete :: Say ReplacedOk :: Say Sep :: out st) 0).
Proof. intros H. sh_unfold. by rewrite H. Qed.

Lemma report_failed d st :
  echo_status w <> 0%Z ->
  report w d st
  = (Exit 1, State (fs st) (Say ReplaceError :: Say Sep :: out st) (echo_status w)).
Proof. intros H%Z.eqb_neq. sh_unfold. by rewrite H. Qed.
End Steps.

(** ** The loop over the target files *)

Section Steady.
Variable w : world.
Variable P : event -> Prop.

Lemma steady_set_status z : steady P (set_status z).
Proof. intros st. exists (State (fs st) (out st) z), []. by split_and!. Qed.

Lemma steady_echo m : P (Say m) -> steady P (echo w m).
Proof.
  intros H st. exists (State (fs st) (Say m :: out st) (echo_status w)), [Say m].
  split_and!; [done..|by constructor].
Qed.

Lemma steady_sed_i f pat rep : P (SedI f pat rep) -> steady P (sed_i w f pat rep).
Proof.
  intros H st. eexists _, [SedI f pat rep]. split_and!; [reflexivity| |done|by constructor].
  cbn [fs]. destruct (_ =? _)%Z; [apply dom_alter_L|done].
Qed.

Lemma steady_bind (m : sh unit) (k : unit -> sh unit) :
  steady P m -> (forall u, steady P (k u)) -> steady P (m ≫= k).
Proof.
  intros Hm Hk st. destruct (Hm st) as (st1 & e1 & E1 & D1 & O1 & F1).
  destruct (Hk () st1) as (st2 & e2 & E2 & D2 & O2 & F2).
  exists st2, (e2 ++ e1). split_and!.
  - by rewrite (bind_next _ _ _ _ _ E1).
  - congruence.
  - by rewrite O2, O1, app_assoc.
  - by apply Forall_app.
Qed.

Lemma steady_get_status (k : Z -> sh unit) :
  (forall s, steady P (k s)) -> steady P (get_status ≫= k).
Proof. intros Hk st. apply (Hk (status st) st). Qed.

Lemma steady_if_then c m : steady P m -> steady P (if_then c m).
Proof. intros Hm. destruct c; [done|apply steady_set_status]. Qed.
End Steady.

Section Loop.
Variable w : world.
Variable slug : text.

Lemma process_file_absent f st :
  fs st !! f = None ->
  process_file w slug f st
  = (Next (), State (fs st) (Say (WarnNotFound f) :: out st) (echo_status w)).
Proof. intros H. sh_unfold. by rewrite H. Qed.

(** What is left of the loop body once the first substitution has run. *)
Lemma process_file_present f st c :
  fs st !! f = Some c ->
  process_file w slug f st
  = after_first_sed w slug f
      (State (if ((if existsb is_nl slug then 1 else sed_status w f PLACEHOLDER_SLUG_APP_JSON) =? 0)%Z
              then alter (sed_s (re_plain PLACEHOLDER_SLUG_APP_JSON slug)) f (fs st)
              else fs st)
             (SedI f PLACEHOLDER_SLUG_APP_JSON slug :: Say (Processing f) :: out st)
             (if existsb is_nl slug then 1 else sed_status w f PLACEHOLDER_SLUG_APP_JSON)).
Proof. intros H. unfold process_file, is_file, mbind at 1, sh_bind at 1. by rewrite H. Qed.

Lemma after_first_sed_steady f : steady (about f) (after_first_sed w slug f).
Proof.
  apply steady_bind; [by apply steady_if_then, steady_sed_i|intros _].
  apply steady_get_status. intros s. by apply steady_if_then, steady_echo.
Qed.

(** One turn of the loop: it goes on to the next file, keeps the set of
    files, and tells about its file only: a warning for a missing file,
    the substitution for a present one. *)
Lemma process_file_events f st :
  exists st' evs,
    process_file w slug f st = (Next (), st')
    /\ dom (fs st') = dom (fs st)
    /\ out st' = evs ++ out st
    /\ Forall (about f) evs
    /\ (fs st !! f = None -> evs = [Say (WarnNotFound f)])
    /\ (is_Some (fs st !! f) ->
        Say (Processing f) ∈ evs /\ SedI f PLACEHOLDER_SLUG_APP_JSON slug ∈ evs).
Proof.
  destruct (fs st !! f) as [c|] eqn:E.
  - rewrite (process_file_present _ _ _ E).
    edestruct (after_first_sed_steady f) as (st' & evs & -> & D & O & F).
    cbn [fs out] in D, O.
    exists st', (evs ++ [SedI f PLACEHOLDER_SLUG_APP_JSON slug; Say (Processing f)]).
    split_and!.
    + done.
    + rewrite D. destruct (_ =? _)%Z; [apply dom_alter_L|done].
    + by rewrite O, <- app_assoc.
    + apply Forall_app. split; [done|]. by repeat constructor.
    + done.
    + intros _. split; apply elem_of_app; right.
      * apply list_elem_of_further, list_elem_of_here.
      * apply list_elem_of_here.
  - rewrite (process_file_absent _ _ E). eexists _, [_].
    split_and!; [done..|by repeat constructor|done|by intros []].
Qed.

(** The whole loop, over any list of files. *)
Lemma for_each_events files st :
  exists st' evs,
    for_each files (process_file w slug) st = (Next (), st')
    /\ dom (fs st') = dom (fs st)
    /\ out st' = evs ++ out st
    /\ (forall e, e ∈ evs -> exists f, f ∈ files /\ about f e)
    /\ (forall f, f ∈ files -> f ∉ dom (fs st) -> Say (WarnNotFound f) ∈ evs)
    /\ (forall f, f ∈ files -> f ∈ dom (fs st) ->
        Say (Processing f) ∈ evs /\ SedI f PLACEHOLDER_SLUG_APP_JSON slug ∈ evs)
    /\ (forall g p r, SedI g p r ∈ evs -> g ∈ dom (fs st)).
Proof.
  revert st. induction files as [|f files IH]; intros st.
  - exists st, []. split_and!; [done..| | | |].
    + intros ? H. by apply elem_of_nil in H.
    + intros ? H. by apply elem_of_nil in H.
    + intros ? H. by apply elem_of_nil in H.
    + intros ??? H. by apply elem_of_nil in H.
  - destruct (process_file_events f st) as (st1 & e1 & E1 & D1 & O1 & F1 & A1 & P1).
    destruct (IH st1) as (st2 & e2 & E2 & D2 & O2 & F2 & A2 & P2 & S2).
    exists st2, (e2 ++ e1). split_and!.
    + simpl. by rewrite (bind_next _ _ _ _ _ E1).
    + congruence.
    + by rewrite O2, O1, app_assoc.
    + intros e [H|H]%elem_of_app.
      * destruct (F2 e H) as (g & Hg & Ha). exists g. split; [by right|done].
      * exists f. split; [by left|]. by eapply Forall_forall in F1.
    + intros g [->|Hg]%elem_of_cons Hd; apply elem_of_app.
      * right. rewrite A1; [by left|]. by apply not_elem_of_dom.
      * left. apply A2; [done|]. by rewrite D1.
    + intros g [->|Hg]%elem_of_cons Hd.
      * apply elem_of_dom in Hd. destruct (P1 Hd). split; apply elem_of_app; by right.
      * rewrite <- D1 in Hd. destruct (P2 g Hg Hd). split; apply elem_of_app; by left.
    + intros g p r [H|H]%elem_of_app.
      * rewrite <- D1. by eapply S2.
      * destruct (fs st !! f) as [c|] eqn:E.
        -- eapply Forall_forall in F1; [|done]. simpl in F1. subst g.
           by apply elem_of_dom.
        -- rewrite (A1 eq_refl) in H. apply list_elem_of_singleton in H. done.
Qed.
End Loop.

(** Step 4 as a whole: the four lines about the derived names, then the loop. *)
Lemma rewrite_placeholders_events w d st :
  let slug := APP_SLUG (BASENAME d) in
  exists st' (evs : list event),
    rewrite_placeholders w d st = (Next (), st')
    /\ dom (fs st') = dom (fs st)
    /\ out st' = evs ++ [Say Replacing; Say Sep; Say (DerivedSlug slug);
                         Say (DerivedName (APP_NAME slug))] ++ out st
    /\ (forall e, e ∈ evs -> exists f, f ∈ TARGET_FILES /\ about f e)
    /\ (forall f, f ∈ TARGET_FILES -> f ∉ dom (fs st) -> Say (WarnNotFound f) ∈ evs)
    /\ (forall f, f ∈ TARGET_FILES -> f ∈ dom (fs st) ->
        Say (Processing f) ∈ evs /\ SedI f PLACEHOLDER_SLUG_APP_JSON slug ∈ evs)
    /\ (forall g p r, SedI g p r ∈ evs -> g ∈ dom (fs st)).
Proof.
  intros slug. unfold rewrite_placeholders. fold slug.
  do 4 (erewrite (bind_next (echo w _)); [|reflexivity]).
  edestruct (for_each_events w slug TARGET_FILES) as (st' & evs & -> & H).
  exists st', evs. split; [done|]. exact H.
Qed.

(** ** Whole runs *)

Section Run.
Variable w : world.
Local Abbreviation d := (destination w).

Lemma run_usage :
  length (args w) <> 1 ->
  run w = (Exit 1, State (dest_before w) [Say UsageExample; Say Usage] (echo_status w)).
Proof.
  intros H. unfold run, copy_template.
  by rewrite (bind_exit _ _ _ _ _ (check_arguments_bad w _ H)).
Qed.

Lemma run_declined :
  length (args w) = 1 -> dir_exists w = true -> affirmative (reply w) = false ->
  run w = (Exit 1, State (dest_before w)
                     [Say Cancelled; Say Blank; Ask; Say (WarnExists d)]
                     (echo_status w)).
Proof.
  intros H1 H2 H3. unfold run, copy_template.
  rewrite (bind_next _ _ _ _ _ (check_arguments_ok w _ H1)).
  by rewrite (bind_exit _ _ _ _ _ (resolve_declined w _ _ H2 H3)).
Qed.

Lemma run_mkdir_failed :
  length (args w) = 1 -> dir_exists w = false -> mkdir_status w <> 0%Z ->
  run w = (Exit 1, State (dest_before w) [Say (MkdirError d); MkdirP d] (echo_status w)).
Proof.
  intros H1 H2 H3. unfold run, copy_template.
  rewrite (bind_next _ _ _ _ _ (check_arguments_ok w _ H1)).
  by rewrite (bind_exit _ _ _ _ _ (resolve_mkdir_failed w _ _ H2 H3)).
Qed.

Lemma resolve_reached st :
  reaches_copy w ->
  resolve_target w d st
  = (Next (), State (fs st) (reverse (target_events w) ++ out st) (echo_status w)).
Proof.
  intros [_ H]. unfold target_events. fold (destination w). destruct (dir_exists w) eqn:E.
  - by rewrite resolve_confirmed.
  - by rewrite resolve_created.
Qed.

Lemma run_copy_failed :
  reaches_copy w -> rsync_status w <> 0%Z ->
  run w = (Exit 1, State (rsync_dest w)
                     (Say CopyError :: Rsync d :: Say Copying :: reverse (target_events w))
                     (echo_status w)).
Proof.
  intros H1 H2. unfold run, copy_template. fold (destination w).
  rewrite (bind_next _ _ _ _ _ (check_arguments_ok w _ (proj1 H1))).
  rewrite (bind_next _ _ _ _ _ (resolve_reached _ H1)).
  rewrite (bind_exit _ _ _ _ _ (copy_failed w _ _ H2)).
  cbn [fs out]. by rewrite app_nil_r.
Qed.

(** After a successful copy the loop runs to its end and hands over to the
    reporter, whatever [sed] returned. *)
Lemma run_rewritten :
  reaches_copy w -> rsync_status w = 0%Z ->
  exists st (evs : list event),
    run w = report w d st
    /\ dom (fs st) = dom (rsync_dest w)
    /\ (forall e, e ∈ out st -> e ∈ evs \/ is_effect e = false \/ e = Rsync d \/ e = MkdirP d)
    /\ (forall e, e ∈ evs -> e ∈ out st)
    /\ (forall e, e ∈ evs -> exists f, f ∈ TARGET_FILES /\ about f e)
    /\ (forall f, f ∈ TARGET_FILES -> f ∉ dom (rsync_dest w) ->
        Say (WarnNotFound f) ∈ evs)
    /\ (forall f, f ∈ TARGET_FILES -> f ∈ dom (rsync_dest w) ->
        Say (Processing f) ∈ evs
        /\ SedI f PLACEHOLDER_SLUG_APP_JSON (APP_SLUG (BASENAME d)) ∈ evs)
    /\ (forall g p r, SedI g p r ∈ evs -> g ∈ dom (rsync_dest w)).
Proof.
  intros H1 H2. unfold run, copy_template. fold (destination w).
  rewrite (bind_next _ _ _ _ _ (check_arguments_ok w _ (proj1 H1))).
  rewrite (bind_next _ _ _ _ _ (resolve_reached _ H1)).
  rewrite (bind_next _ _ _ _ _ (copy_done w _ _ H2)).
  cbn [fs out]. rewrite app_nil_r.
  edestruct (rewrite_placeholders_events w d) as (st & evs & E & D & O & F & A & P & S).
  rewrite (bind_next _ _ _ _ _ E). cbn [fs out] in D, O, A, P, S.
  exists st, evs. split_and!; try done.
  - intros e He. rewrite O in He. apply elem_of_app in He as [He|He]; [by left|].
    right. unfold target_events in He. fold (destination w) in He.
    destruct (dir_exists w); simpl in He;
      repeat (apply elem_of_cons in He as [->|He]; [by auto|]);
      by apply elem_of_nil in He.
  - intros e He. rewrite O. apply elem_of_app. by left.
Qed.
End Run.

(** ** Properties of whole runs *)

Lemma not_affirmative r : r <> txt "y" -> r <> txt "Y" -> affirmative r = false.
Proof.
  intros Hy HY. destruct r as [|c [|? ?]]; [done| |done]. simpl.
  destruct (Ascii.eqb_spec c "y") as [->|]; [done|].
  destruct (Ascii.eqb_spec c "Y") as [->|]; done.
Qed.

Lemma target_events_no_sed w f p r : SedI f p r ∉ target_events w.
Proof.
  unfold target_events. intros H. destruct (dir_exists w); simpl in H;
    repeat (apply elem_of_cons in H as [?|H]; [done|]); by apply elem_of_nil in H.
Qed.

(** The exit code is zero exactly when the copy was reached and succeeded
    and the last [echo] succeeded: the statuses of sed play no part. *)
Theorem exit_code_zero_iff w :
  exit_code w = 0%Z
  <-> reaches_copy w /\ rsync_status w = 0%Z /\ echo_status w = 0%Z.
Proof.
  assert (forall P : Prop, ~ P -> (1 = 0)%Z <-> P) as no by (intros P HP; split; [done|tauto]).
  unfold exit_code.
  destruct (decide (reaches_copy w)) as [Hr|Hr].
  - destruct (decide (rsync_status w = 0%Z)) as [Hc|Hc].
    + destruct (run_rewritten w Hr Hc) as (st & evs & -> & _).
      destruct (decide (echo_status w = 0%Z)) as [He|He].
      * by rewrite (report_ok w _ _ He).
      * rewrite (report_failed w _ _ He). apply no. tauto.
    + rewrite (run_copy_failed w Hr Hc). apply no. tauto.
  - assert (~ (reaches_copy w /\ rsync_status w = 0%Z /\ echo_status w = 0%Z)) by tauto.
    unfold reaches_copy in Hr.
    destruct (decide (length (args w) = 1)) as [Ha|Ha];
      [|rewrite (run_usage w Ha); by apply no].
    destruct (dir_exists w) eqn:Hd.
    + rewrite (run_declined w Ha Hd); [by apply no|].
      destruct (affirmative (reply w)); tauto.
    + rewrite (run_mkdir_failed w Ha Hd); [by apply no|tauto].
Qed.

(** C7: when the copy fails, the script prints the error and exits with
    code 1 right after rsync; no sed has run, and the destination holds what
    rsync left there. *)
Theorem copy_failure_stops_before_rewrite w :
  reaches_copy w -> rsync_status w <> 0%Z ->
  exit_code w = 1%Z
  /\ trace w = target_events w ++ [Say Copying; Rsync (destination w); Say CopyError]
  /\ (forall f p r, SedI f p r ∉ trace w)
  /\ final_fs w = rsync_dest w.
Proof.
  intros Hr Hc. unfold exit_code, trace, final_fs. rewrite (run_copy_failed w Hr Hc).
  cbn [fst snd out fs].
  assert (reverse (Say CopyError :: Rsync (destination w) :: Say Copying
                   :: reverse (target_events w))
          = target_events w ++ [Say Copying; Rsync (destination w); Say CopyError]) as ->.
  { rewrite !reverse_cons, reverse_involutive, <- !app_assoc. done. }
  split_and!; [done..| |done].
  intros f p r [H|H]%elem_of_app.
  - by apply target_events_no_sed in H.
  - repeat (apply elem_of_cons in H as [?|H]; [done|]). by apply elem_of_nil in H.
Qed.

Lemma copy_failure_stops_before_rewrite_witness :
  exit_code w_copy_fails = 1%Z
  /\ trace w_copy_fails
     = target_events w_copy_fails
       ++ [Say Copying; Rsync (destination w_copy_fails); Say CopyError]
  /\ (forall f p r, SedI f p r ∉ trace w_copy_fails)
  /\ final_fs w_copy_fails = rsync_dest w_copy_fails.
Proof.
  apply (copy_failure_stops_before_rewrite w_copy_fails).
  - split; reflexivity.
  - discriminate.
Defined.

(** C8: when the destination exists and the answer is neither [y] nor [Y],
    the script exits with code 1 after the warning, the prompt and the
    cancellation message: nothing was created, copied or rewritten. *)
Theorem declined_overwrite_has_no_effect w :
  length (args w) = 1 -> dir_exists w = true ->
  reply w <> txt "y" -> reply w <> txt "Y" ->
  exit_code w = 1%Z
  /\ trace w = [Say (WarnExists (destination w)); Ask; Say Blank; Say Cancelled]
  /\ (forall e, e ∈ trace w -> is_effect e = false)
  /\ final_fs w = dest_before w.
Proof.
  intros Ha Hd Hy HY. unfold exit_code, trace, final_fs.
  rewrite (run_declined w Ha Hd (not_affirmative _ Hy HY)). cbn [fst snd out fs].
  split_and!; [done..| |done].
  intros e H. change (e ∈ [Say (WarnExists (destination w)); Ask; Say Blank; Say Cancelled]) in H.
  repeat (apply elem_of_cons in H as [->|H]; [done|]). by apply elem_of_nil in H.
Qed.

Lemma declined_overwrite_has_no_effect_witness :
  exit_code w_declined = 1%Z
  /\ trace w_declined
     = [Say (WarnExists (destination w_declined)); Ask; Say Blank; Say Cancelled]
  /\ (forall e, e ∈ trace w_declined -> is_effect e = false)
  /\ final_fs w_declined = dest_before w_declined.
Proof.
  apply (declined_overwrite_has_no_effect w_declined).
  - reflexivity.
  - reflexivity.
  - discriminate.
  - discriminate.
Defined.

(** C9: after a successful copy, a target file that is missing from the
    destination gets a warning and no sed; every target file that is there is
    processed; and the run goes on to the reporter, where it ends with code 0
    when the last [echo] succeeds. *)
Theorem missing_target_is_skipped w f :
  reaches_copy w -> rsync_status w = 0%Z ->
  f ∈ TARGET_FILES -> rsync_dest w !! f = None ->
  Say (WarnNotFound f) ∈ trace w
  /\ (forall p r, SedI f p r ∉ trace w)
  /\ (forall g, g ∈ TARGET_FILES -> is_Some (rsync_dest w !! g) ->
      Say (Processing g) ∈ trace w
      /\ SedI g PLACEHOLDER_SLUG_APP_JSON (APP_SLUG (BASENAME (destination w))) ∈ trace w)
  /\ (Say ReplacedOk ∈ trace w \/ Say ReplaceError ∈ trace w)
  /\ (echo_status w = 0%Z -> exit_code w = 0%Z).
Proof.
  intros Hr Hc Hf Hnone.
  destruct (run_rewritten w Hr Hc) as (st & evs & E & D & O1 & O2 & F & A & P & S).
  assert (forall e, e ∈ out st -> e ∈ trace w) as Hkeep.
  { intros e He. unfold trace. rewrite E. apply elem_of_reverse.
    destruct (decide (echo_status w = 0%Z)) as [H0|H0].
    - rewrite (report_ok w _ _ H0). cbn [snd out]. by do 7 apply list_elem_of_further.
    - rewrite (report_failed w _ _ H0). cbn [snd out]. by do 2 apply list_elem_of_further. }
  assert (forall g p r, SedI g p r ∈ trace w -> SedI g p r ∈ out st) as Hsed.
  { intros g p r. unfold trace. rewrite E, elem_of_reverse.
    destruct (decide (echo_status w = 0%Z)) as [H0|H0].
    - rewrite (report_ok w _ _ H0). cbn [snd out]. intros H.
      by repeat (apply elem_of_cons in H as [?|H]; [done|]).
    - rewrite (report_failed w _ _ H0). cbn [snd out]. intros H.
      by repeat (apply elem_of_cons in H as [?|H]; [done|]). }
  split_and!.
  - apply Hkeep, O2, A; [done|]. by apply not_elem_of_dom.
  - intros p r H. apply Hsed in H. apply O1 in H as [H|[H|[H|H]]]; [|done..].
    apply S in H. by apply not_elem_of_dom in Hnone.
  - intros g Hg Hsome. apply elem_of_dom in Hsome. destruct (P g Hg Hsome).
    split; by apply Hkeep, O2.
  - unfold trace. rewrite E. destruct (decide (echo_status w = 0%Z)) as [H0|H0].
    + left. rewrite (report_ok w _ _ H0). cbn [snd out]. apply elem_of_reverse.
      do 5 apply list_elem_of_further. apply list_elem_of_here.
    + right. rewrite (report_failed w _ _ H0). cbn [snd out]. apply elem_of_reverse.
      apply list_elem_of_here.
  - intros H0. apply exit_code_zero_iff. done.
Qed.

Lemma missing_target_is_skipped_witness :
  Say (WarnNotFound "package.json") ∈ trace w_taco
  /\ (forall p r, SedI "package.json" p r ∉ trace w_taco)
  /\ (forall g, g ∈ TARGET_FILES -> is_Some (rsync_dest w_taco !! g) ->
      Say (Processing g) ∈ trace w_taco
      /\ SedI g PLACEHOLDER_SLUG_APP_JSON (APP_SLUG (BASENAME (destination w_taco)))
           ∈ trace w_taco)
  /\ (Say ReplacedOk ∈ trace w_taco \/ Say ReplaceError ∈ trace w_taco)
  /\ (echo_status w_taco = 0%Z -> exit_code w_taco = 0%Z).
Proof.
  apply (missing_target_is_skipped w_taco "package.json").
  - split; reflexivity.
  - reflexivity.
  - apply list_elem_of_further, list_elem_of_here.
  - reflexivity.
Defined.

(** Whatever the slug, the two substitutions leave the line of the bundle
    identifier as it is. *)
Lemma bundle_line_untouched slug :
  gsub (re_plain (PLACEHOLDER_BUNDLE_ID_PREFIX ++ PLACEHOLDER_SLUG_APP_JSON)
                 (PLACEHOLDER_BUNDLE_ID_PREFIX ++ slug)) 0 true
    (gsub (re_plain PLACEHOLDER_SLUG_APP_JSON slug) 0 true bundle_line)
  = bundle_line.
Proof. reflexivity. Qed.

(** C1, on the template manifest with destination [taco-app]: the slug is
    rewritten, the bundle identifier is not.  Its placeholder is written
    without hyphens, so neither [lenmie-expo-template] nor
    [com.javiso.lenmie-expo-template] occurs in it, and both substitutions
    pass it by. *)
Theorem bundle_identifier_keeps_placeholder :
  exit_code w_taco = 0%Z
  /\ rsync_dest w_taco !! "app.json"%string = Some template_app_json
  /\ final_fs w_taco !! "app.json"%string = Some taco_app_json
  /\ contains (json_field "slug" "taco-app") taco_app_json = true
  /\ contains (json_field "bundleIdentifier" "com.javiso.taco-app") taco_app_json = false
  /\ contains (json_field "bundleIdentifier" "com.javiso.lenmieexpotemplate") taco_app_json
     = true.
Proof. split_and!; vm_compute; reflexivity. Qed.

(** C2, in a run where every sed call fails: the warning about [app.json]
    is printed and the file keeps its placeholders, yet the reporter takes
    the success branch and the exit code is 0, because the status it tests
    is that of the [echo] just before it. *)
Theorem sed_failure_ends_in_success :
  exit_code w_sed_fails = 0%Z
  /\ In (Say (WarnFailed "app.json")) (trace w_sed_fails)
  /\ In (Say ReplacedOk) (trace w_sed_fails)
  /\ ~ In (Say ReplaceError) (trace w_sed_fails)
  /\ final_fs w_sed_fails !! "app.json"%string = Some template_app_json.
Proof.
  split_and!; [reflexivity| | | |reflexivity].
  - vm_compute. tauto.
  - vm_compute. tauto.
  - vm_compute. intros H. repeat (destruct H as [H|H]; [discriminate|]). done.
Qed.

(** ** Successful copies in closed form *)

Section Exact.
Variable w : world.
Variable slug : text.

Lemma process_file_exact f st :
  exists z,
    process_file w slug f st
    = (Next (), State (file_fs w slug f (fs st))
                      (reverse (file_events w slug f (fs st)) ++ out st) z).
Proof.
  unfold file_fs, file_events. destruct (fs st !! f) as [c|] eqn:E.
  - rewrite (process_file_present _ _ _ _ _ E).
    unfold after_first_sed, sed_fs, sed_code, BUNDLE_PATTERN, bundle_id.
    destruct (String.eqb f "app.json"); sh_unfold.
    + destruct (_ =? 0)%Z eqn:E2 at 1.
      * rewrite E2. simpl. eexists. reflexivity.
      * rewrite E2. simpl. eexists. reflexivity.
    + eexists. reflexivity.
  - rewrite (process_file_absent _ _ _ _ E). eexists. reflexivity.
Qed.

Lemma for_each_exact files st :
  exists z,
    for_each files (process_file w slug) st
    = (Next (), State (loop_fs w slug files (fs st))
                      (reverse (loop_events w slug files (fs st)) ++ out st) z).
Proof.
  revert st. induction files as [|f files IH]; intros st.
  - exists (status st). by destruct st.
  - destruct (process_file_exact f st) as [z1 E1].
    destruct (IH (State (file_fs w slug f (fs st))
                        (reverse (file_events w slug f (fs st)) ++ out st) z1)) as [z2 E2].
    exists z2. simpl. rewrite (bind_next _ _ _ _ _ E1), E2. cbn [fs out].
    by rewrite reverse_app, <- app_assoc.
Qed.
End Exact.

Lemma rewrite_placeholders_exact w d st :
  exists z,
    rewrite_placeholders w d st
    = (Next (),
       State (loop_fs w (APP_SLUG (BASENAME d)) TARGET_FILES (fs st))
             (reverse (loop_events w (APP_SLUG (BASENAME d)) TARGET_FILES (fs st))
              ++ Say Replacing :: Say Sep :: Say (DerivedSlug (APP_SLUG (BASENAME d)))
                 :: Say (DerivedName (APP_NAME (APP_SLUG (BASENAME d)))) :: out st) z).
Proof.
  unfold rewrite_placeholders.
  do 4 (erewrite (bind_next (echo w _)); [|reflexivity]).
  apply for_each_exact.
Qed.

Ltac reverse_all :=
  repeat first [rewrite reverse_involutive | rewrite reverse_app | rewrite reverse_cons
               | rewrite reverse_nil];
  rewrite <- ?app_assoc; simpl.

(** A run whose copy succeeds: its events in order, and its files. *)
Lemma run_success_exact w :
  reaches_copy w -> rsync_status w = 0%Z ->
  trace w = target_events w ++ copy_events w ++ derive_events w
            ++ loop_events w (slug_of w) TARGET_FILES (rsync_dest w) ++ report_events w
  /\ final_fs w = loop_fs w (slug_of w) TARGET_FILES (rsync_dest w)
  /\ exit_code w = (if (echo_status w =? 0)%Z then 0 else 1)%Z.
Proof.
  intros H1 H2. unfold trace, final_fs, exit_code, run, copy_template.
  fold (destination w).
  rewrite (bind_next _ _ _ _ _ (check_arguments_ok w _ (proj1 H1))).
  rewrite (bind_next _ _ _ _ _ (resolve_reached _ _ H1)).
  rewrite (bind_next _ _ _ _ _ (copy_done w _ _ H2)).
  cbn [fs out]. rewrite app_nil_r.
  edestruct (rewrite_placeholders_exact w (destination w)) as [z E].
  rewrite (bind_next _ _ _ _ _ E). cbn [fs out]. clear E.
  unfold report_events, copy_events, derive_events. fold (slug_of w).
  destruct (Z.eqb_spec (echo_status w) 0) as [He|He].
  - rewrite (report_ok w _ _ He). cbn [fst snd fs out status].
    split_and!; [|done..]. by reverse_all.
  - rewrite (report_failed w _ _ He). cbn [fst snd fs out status].
    split_and!; [|done..]. by reverse_all.
Qed.

(** Every run is of one of five kinds. *)
Lemma run_cases w :
  (length (args w) <> 1
   /\ trace w = [Say Usage; Say UsageExample]
   /\ final_fs w = dest_before w /\ exit_code w = 1%Z)
  \/ (length (args w) = 1 /\ dir_exists w = true /\ affirmative (reply w) = false
      /\ trace w = [Say (WarnExists (destination w)); Ask; Say Blank; Say Cancelled]
      /\ final_fs w = dest_before w /\ exit_code w = 1%Z)
  \/ (length (args w) = 1 /\ dir_exists w = false /\ mkdir_status w <> 0%Z
      /\ trace w = [MkdirP (destination w); Say (MkdirError (destination w))]
      /\ final_fs w = dest_before w /\ exit_code w = 1%Z)
  \/ (reaches_copy w /\ rsync_status w <> 0%Z
      /\ trace w = target_events w ++ [Say Copying; Rsync (destination w); Say CopyError]
      /\ final_fs w = rsync_dest w /\ exit_code w = 1%Z)
  \/ (reaches_copy w /\ rsync_status w = 0%Z
      /\ trace w = target_events w ++ copy_events w ++ derive_events w
                   ++ loop_events w (slug_of w) TARGET_FILES (rsync_dest w)
                   ++ report_events w
      /\ final_fs w = loop_fs w (slug_of w) TARGET_FILES (rsync_dest w)
      /\ exit_code w = (if (echo_status w =? 0)%Z then 0 else 1)%Z).
Proof.
  destruct (decide (reaches_copy w)) as [Hr|Hr].
  - destruct (decide (rsync_status w = 0%Z)) as [Hc|Hc].
    + do 4 right. by destruct (run_success_exact w Hr Hc) as (? & ? & ?).
    + do 3 right. left. unfold trace, final_fs, exit_code.
      rewrite (run_copy_failed w Hr Hc). cbn [fst snd fs out]. split_and!; [done..| |done|done].
      by reverse_all.
  - unfold reaches_copy in Hr.
    destruct (decide (length (args w) = 1)) as [Ha|Ha].
    + destruct (dir_exists w) eqn:Hd.
      * right. left. destruct (affirmative (reply w)) eqn:Hy; [tauto|].
        unfold trace, final_fs, exit_code. by rewrite (run_declined w Ha Hd Hy).
      * do 2 right. left. assert (mkdir_status w <> 0%Z) as Hm by tauto.
        unfold trace, final_fs, exit_code. by rewrite (run_mkdir_failed w Ha Hd Hm).
    + left. unfold trace, final_fs, exit_code. by rewrite (run_usage w Ha).
Qed.

Lemma reaches_copy_args w : reaches_copy w -> length (args w) = 1.
Proof. by intros [? _]. Qed.

Lemma affirmative_iff r : affirmative r = true <-> r = txt "y" \/ r = txt "Y".
Proof.
  split.
  - destruct (decide (r = txt "y")) as [|Hy]; [by left|].
    destruct (decide (r = txt "Y")) as [|HY]; [by right|].
    by rewrite (not_affirmative _ Hy HY).
  - by intros [-> | ->].
Qed.

(** *** Facts about the loop in closed form *)

Lemma sed_fs_dom w f pat rep m : dom (sed_fs w f pat rep m) = dom m.
Proof. unfold sed_fs. destruct (_ =? _)%Z; [apply dom_alter_L|done]. Qed.

Lemma sed_fs_other w f pat rep m g : g <> f -> sed_fs w f pat rep m !! g = m !! g.
Proof. intros H. unfold sed_fs. destruct (_ =? _)%Z; [by apply lookup_alter_ne|done]. Qed.

Lemma file_fs_dom w slug f m : dom (file_fs w slug f m) = dom m.
Proof.
  unfold file_fs. destruct (m !! f); [|done].
  destruct (String.eqb f "app.json"); by rewrite ?sed_fs_dom.
Qed.

Lemma file_fs_other w slug f m g : g <> f -> file_fs w slug f m !! g = m !! g.
Proof.
  intros H. unfold file_fs. destruct (m !! f); [|done].
  destruct (String.eqb f "app.json"); by rewrite ?sed_fs_other.
Qed.

Lemma loop_fs_dom w slug files m : dom (loop_fs w slug files m) = dom m.
Proof.
  revert m. induction files as [|f files IH]; intros m; simpl; [done|].
  by rewrite IH, file_fs_dom.
Qed.

Lemma loop_fs_other w slug files m g :
  g ∉ files -> loop_fs w slug files m !! g = m !! g.
Proof.
  revert m. induction files as [|f files IH]; intros m Hg; simpl; [done|].
  apply not_elem_of_cons in Hg as [Hf Hg]. by rewrite IH, file_fs_other.
Qed.

Lemma file_events_about w slug f m e : e ∈ file_events w slug f m -> about f e.
Proof.
  unfold file_events. destruct (m !! f).
  - destruct (String.eqb f "app.json"); [destruct (_ =? _)%Z|]; simpl;
      intros H; repeat (apply elem_of_cons in H as [->|H]; [done|]);
      by apply elem_of_nil in H.
  - intros ->%list_elem_of_singleton. done.
Qed.

Lemma loop_events_about w slug files m e :
  e ∈ loop_events w slug files m -> exists f, f ∈ files /\ about f e.
Proof.
  revert m. induction files as [|f files IH]; intros m; simpl.
  - intros H. by apply elem_of_nil in H.
  - intros [H|H]%elem_of_app.
    + exists f. split; [by left|by eapply file_events_about].
    + destruct (IH _ H) as (g & Hg & Ha). exists g. split; [by right|done].
Qed.

(** ** More properties of whole runs *)

(** A wrong number of arguments: the usage lines, exit code 1, and nothing
    else, whatever the arguments are. *)
Theorem usage_error_stops_at_once w :
  length (args w) <> 1 ->
  exit_code w = 1%Z
  /\ trace w = [Say Usage; Say UsageExample]
  /\ final_fs w = dest_before w.
Proof.
  intros Ha. unfold exit_code, trace, final_fs. by rewrite (run_usage w Ha).
Qed.

Lemma usage_error_stops_at_once_witness :
  exit_code w_no_args = 1%Z
  /\ trace w_no_args = [Say Usage; Say UsageExample]
  /\ final_fs w_no_args = dest_before w_no_args.
Proof. apply (usage_error_stops_at_once w_no_args). discriminate. Defined.

(** When [mkdir -p] fails the script prints the error and exits with code 1:
    no copy, no substitution. *)
Theorem mkdir_failure_stops_before_copy w :
  length (args w) = 1 -> dir_exists w = false -> mkdir_status w <> 0%Z ->
  exit_code w = 1%Z
  /\ trace w = [MkdirP (destination w); Say (MkdirError (destination w))]
  /\ final_fs w = dest_before w.
Proof.
  intros Ha Hd Hm. unfold exit_code, trace, final_fs.
  by rewrite (run_mkdir_failed w Ha Hd Hm).
Qed.

Lemma mkdir_failure_stops_before_copy_witness :
  exit_code w_mkdir_fails = 1%Z
  /\ trace w_mkdir_fails
     = [MkdirP (destination w_mkdir_fails); Say (MkdirError (destination w_mkdir_fails))]
  /\ final_fs w_mkdir_fails = dest_before w_mkdir_fails.
Proof.
  apply (mkdir_failure_stops_before_copy w_mkdir_fails); [reflexivity..|discriminate].
Defined.


Lemma target_events_cases w e :
  e ∈ target_events w ->
  (dir_exists w = true
   /\ (e = Say (WarnExists (destination w)) \/ e = Ask \/ e = Say Blank
       \/ e = Say (TargetDirectory (destination w)) \/ e = Say Sep))
  \/ (dir_exists w = false
      /\ (e = MkdirP (destination w)
          \/ e = Say (TargetDirectory (destination w)) \/ e = Say Sep)).
Proof. unfold target_events. destruct (dir_exists w); set_solver. Qed.

Lemma report_events_say w e : e ∈ report_events w -> exists m, e = Say m.
Proof. unfold report_events. destruct (_ =? _)%Z; set_solver. Qed.

Lemma loop_events_plain w slug files m e :
  e ∈ loop_events w slug files m -> e <> Ask /\ (forall d, e <> MkdirP d /\ e <> Rsync d).
Proof.
  intros (f & _ & H)%loop_events_about. by destruct e.
Qed.

(** rsync runs exactly when there is one argument and the destination was
    created, or exists and the answer was [y] or [Y]; it is given that
    argument. *)
Theorem rsync_runs_iff w d :
  Rsync d ∈ trace w
  <-> length (args w) = 1 /\ d = destination w
      /\ (if dir_exists w then reply w = txt "y" \/ reply w = txt "Y"
          else mkdir_status w = 0%Z).
Proof.
  assert (reaches_copy w <->
          length (args w) = 1
          /\ (if dir_exists w then reply w = txt "y" \/ reply w = txt "Y"
              else mkdir_status w = 0%Z)) as Hreach.
  { unfold reaches_copy. destruct (dir_exists w); [by rewrite affirmative_iff|done]. }
  destruct (run_cases w) as [H|[H|[H|[H|H]]]].
  - destruct H as (Ha & -> & _). set_solver.
  - destruct H as (Ha & Hd & Hy & -> & _). rewrite Hd, <- affirmative_iff, Hy. set_solver.
  - destruct H as (Ha & Hd & Hm & -> & _). rewrite Hd. set_solver.
  - destruct H as (Hr & _ & -> & _). split.
    + intros [H|H]%elem_of_app.
      * apply target_events_cases in H. set_solver.
      * assert (d = destination w) by set_solver. tauto.
    + intros (_ & -> & _). set_solver.
  - destruct H as (Hr & _ & -> & _). split.
    + rewrite !elem_of_app. intros [H|[H|[H|[H|H]]]].
      * apply target_events_cases in H. set_solver.
      * assert (d = destination w) by (unfold copy_events in H; set_solver). tauto.
      * unfold derive_events in H. set_solver.
      * apply loop_events_plain in H as [_ H]. by destruct (H d).
      * apply report_events_say in H as [? ?]. done.
    + intros (_ & -> & _). unfold copy_events. set_solver.
Qed.

Ltac run_kinds w :=
  destruct (run_cases w)
    as [(Ha & Ht & Hf & He)
       |[(Ha & Hd & Hy & Ht & Hf & He)
        |[(Ha & Hd & Hm & Ht & Hf & He)
         |[([Ha Hx] & Hc & Ht & Hf & He)
          |([Ha Hx] & Hc & Ht & Hf & He)]]]].

(** The operator is asked exactly when the destination exists, and the
    destination is created exactly when it does not; never both. *)
Theorem prompt_or_mkdir w :
  (Ask ∈ trace w <-> length (args w) = 1 /\ dir_exists w = true)
  /\ (forall d, MkdirP d ∈ trace w
        <-> length (args w) = 1 /\ dir_exists w = false /\ d = destination w).
Proof.
  run_kinds w; rewrite Ht.
  - set_solver.
  - rewrite Hd. set_solver.
  - rewrite Hd. set_solver.
  - unfold target_events. destruct (dir_exists w); set_solver.
  - split; [|intros d]; rewrite !elem_of_app; (split; [intros [H|[H|[H|[H|H]]]]|]).
    + apply target_events_cases in H. set_solver.
    + unfold copy_events in H. set_solver.
    + unfold derive_events in H. set_solver.
    + by apply loop_events_plain in H as [? _].
    + by apply report_events_say in H as [? ?].
    + intros [_ Hd]. left. unfold target_events. rewrite Hd. set_solver.
    + apply target_events_cases in H. set_solver.
    + unfold copy_events in H. set_solver.
    + unfold derive_events in H. set_solver.
    + apply loop_events_plain in H as [_ H]. by destruct (H d).
    + by apply report_events_say in H as [? ?].
    + intros (_ & Hd & ->). left. unfold target_events. rewrite Hd. set_solver.
Qed.

(** *** Where sed runs *)

Lemma file_events_sed w slug f m g p r :
  SedI g p r ∈ file_events w slug f m ->
  g = f /\ is_Some (m !! f)
  /\ ((p = PLACEHOLDER_SLUG_APP_JSON /\ r = slug)
      \/ (f = "app.json"%string /\ p = BUNDLE_PATTERN /\ r = bundle_id slug)).
Proof.
  unfold file_events. destruct (m !! f) eqn:E; [|set_solver].
  destruct (String.eqb_spec f "app.json"); [destruct (_ =? _)%Z|]; set_solver.
Qed.

Lemma loop_events_sed w slug files m g p r :
  SedI g p r ∈ loop_events w slug files m ->
  g ∈ files /\ is_Some (m !! g)
  /\ ((p = PLACEHOLDER_SLUG_APP_JSON /\ r = slug)
      \/ (g = "app.json"%string /\ p = BUNDLE_PATTERN /\ r = bundle_id slug)).
Proof.
  revert m. induction files as [|f files IH]; intros m; simpl; [set_solver|].
  intros [H|H]%elem_of_app.
  - apply file_events_sed in H as (-> & ? & ?). split_and!; [by left|done..].
  - apply IH in H as (? & Hs & ?). split_and!; [by right| |done].
    by rewrite <- elem_of_dom, <- (file_fs_dom w slug f), elem_of_dom.
Qed.

(** sed is run only after a successful copy, only on a target file that the
    copy has left in the destination, and only with one of the two
    substitutions, the second of them on [app.json] alone. *)
Theorem sed_only_on_copied_targets w f p r :
  SedI f p r ∈ trace w ->
  reaches_copy w /\ rsync_status w = 0%Z
  /\ f ∈ TARGET_FILES /\ is_Some (rsync_dest w !! f)
  /\ ((p = PLACEHOLDER_SLUG_APP_JSON /\ r = slug_of w)
      \/ (f = "app.json"%string /\ p = BUNDLE_PATTERN /\ r = bundle_id (slug_of w))).
Proof.
  run_kinds w; rewrite Ht.
  - set_solver.
  - set_solver.
  - set_solver.
  - intros [H|H]%elem_of_app; [by apply target_events_no_sed in H|set_solver].
  - rewrite !elem_of_app. intros [H|[H|[H|[H|H]]]].
    + by apply target_events_no_sed in H.
    + unfold copy_events in H. set_solver.
    + unfold derive_events in H. set_solver.
    + apply loop_events_sed in H as (? & ? & ?). by split_and!.
    + by apply report_events_say in H as [? ?].
Qed.

Lemma sed_only_on_copied_targets_witness :
  reaches_copy w_taco /\ rsync_status w_taco = 0%Z
  /\ "app.json"%string ∈ TARGET_FILES /\ is_Some (rsync_dest w_taco !! "app.json"%string)
  /\ ((BUNDLE_PATTERN = PLACEHOLDER_SLUG_APP_JSON /\ bundle_id (txt "taco-app") = slug_of w_taco)
      \/ ("app.json"%string = "app.json"%string /\ BUNDLE_PATTERN = BUNDLE_PATTERN
          /\ bundle_id (txt "taco-app") = bundle_id (slug_of w_taco))).
Proof.
  apply (sed_only_on_copied_targets w_taco "app.json" BUNDLE_PATTERN (bundle_id (txt "taco-app"))).
  apply list_elem_of_In. vm_compute. tauto.
Defined.

Lemma split_after {A} (a b pre post : list A) (x : A) :
  a ++ b = pre ++ x :: post -> x ∉ a -> exists pre', pre = a ++ pre'.
Proof.
  revert pre. induction a as [|y a IH]; intros pre E Hx; [by exists pre|].
  destruct pre as [|z pre]; simpl in E.
  - injection E as -> _. by destruct Hx; left.
  - injection E as -> E. destruct (IH pre E) as [pre' ->]; [set_solver|]. by exists pre'.
Qed.

(** Copy before rewrite: in every run, whatever comes before a sed call
    includes the rsync call. *)
Theorem rsync_before_sed w pre f p r post :
  trace w = pre ++ SedI f p r :: post -> Rsync (destination w) ∈ pre.
Proof.
  intros E. assert (SedI f p r ∈ trace w) as Hin by (rewrite E; set_solver).
  run_kinds w; rewrite Ht in *; try set_solver.
  - apply elem_of_app in Hin as [H|H]; [by apply target_events_no_sed in H|set_solver].
  - rewrite app_assoc in E. apply split_after in E as [pre' ->].
    + unfold copy_events. set_solver.
    + intros [H|H]%elem_of_app; [by apply target_events_no_sed in H|].
      unfold copy_events in H. set_solver.
Qed.

Lemma rsync_before_sed_witness :
  Rsync (destination w_taco)
  ∈ take 12 (trace w_taco).
Proof.
  apply (rsync_before_sed w_taco _ "app.json" PLACEHOLDER_SLUG_APP_JSON (txt "taco-app")
           (drop 13 (trace w_taco))).
  reflexivity.
Defined.

(** *** What is reported, and what is changed *)

Lemma file_events_warning w slug f m g :
  Say (WarnFailed g) ∈ file_events w slug f m
  <-> g = f /\ f = "app.json"%string /\ is_Some (m !! f)
      /\ sed_code w f BUNDLE_PATTERN (bundle_id slug) <> 0%Z.
Proof.
  unfold file_events. destruct (m !! f) eqn:E.
  - destruct (String.eqb_spec f "app.json"); [|set_solver].
    destruct (Z.eqb_spec (sed_code w f BUNDLE_PATTERN (bundle_id slug)) 0); set_solver.
  - split; [set_solver|]. by intros (_ & _ & [? ?] & _).
Qed.

(** The warning about a failed substitution is printed for [app.json] only,
    and exactly when its second substitution fails: a failure of the first
    substitution, on either file, is not reported. *)
Theorem failure_warning_iff w f :
  Say (WarnFailed f) ∈ trace w
  <-> f = "app.json"%string
      /\ reaches_copy w /\ rsync_status w = 0%Z
      /\ is_Some (rsync_dest w !! "app.json"%string)
      /\ sed_code w "app.json" BUNDLE_PATTERN (bundle_id (slug_of w)) <> 0%Z.
Proof.
  run_kinds w; rewrite Ht.
  - split; [set_solver|]. by intros (_ & [? _] & _).
  - split; [set_solver|]. intros (_ & [_ Hx] & _). rewrite Hd in Hx. congruence.
  - split; [set_solver|]. intros (_ & [_ Hx] & _). rewrite Hd in Hx. congruence.
  - rewrite elem_of_app. split; [intros [H|H]|tauto].
    + apply target_events_cases in H. set_solver.
    + set_solver.
  - rewrite !elem_of_app. unfold TARGET_FILES. simpl loop_events.
    rewrite app_nil_r, elem_of_app, !file_events_warning. split.
    + intros [H|[H|[H|[[H|H]|H]]]].
      * apply target_events_cases in H. set_solver.
      * unfold copy_events in H. set_solver.
      * unfold derive_events in H. set_solver.
      * destruct H as (-> & _ & ? & ?). by split_and!.
      * by destruct H as (_ & ? & _).
      * unfold report_events in H. destruct (_ =? _)%Z; set_solver.
    + intros (-> & _ & _ & ? & ?). do 3 right. left. left. done.
Qed.

(** The rewriter neither adds nor removes a file, and leaves every file
    outside [TARGET_FILES] as the copy left it. *)
Theorem rewrite_touches_targets_only w :
  reaches_copy w ->
  dom (final_fs w) = dom (rsync_dest w)
  /\ (forall g, g ∉ TARGET_FILES -> final_fs w !! g = rsync_dest w !! g).
Proof.
  intros Hr. destruct (Hr) as [Hlen Hgo].
  run_kinds w; rewrite Hf.
  - done.
  - rewrite Hd in Hgo. congruence.
  - by rewrite Hd in Hgo.
  - done.
  - split; [apply loop_fs_dom|]. intros g Hg. by apply loop_fs_other.
Qed.

Lemma rewrite_touches_targets_only_witness :
  dom (final_fs w_confirmed) = dom (rsync_dest w_confirmed)
  /\ (forall g, g ∉ TARGET_FILES -> final_fs w_confirmed !! g = rsync_dest w_confirmed !! g).
Proof. apply (rewrite_touches_targets_only w_confirmed). split; reflexivity. Defined.

(** *** Substitution where nothing matches *)

Lemma bre_prefix_app pat l x : bre_prefix pat l = true -> bre_prefix pat (l ++ x) = true.
Proof.
  revert l. induction pat as [|p pat IH]; intros l; [done|].
  destruct l as [|c l]; [done|]. simpl.
  intros [-> H]%andb_prop. by rewrite (IH _ H).
Qed.

Lemma occurs_suffix pat a b : occurs pat (a ++ b) = false -> occurs pat b = false.
Proof.
  induction a as [|c a IH]; [done|]. simpl.
  intros [_ H]%orb_false_elim. by apply IH.
Qed.

Lemma occurs_head pat t : occurs pat t = false -> bre_prefix pat t = false.
Proof. destruct t; simpl; by intros [? _]%orb_false_elim. Qed.

Lemma gsub_no_match pat rep bol l x :
  occurs pat (l ++ x) = false -> gsub (re_plain pat rep) 0 bol l = l.
Proof.
  revert bol. induction l as [|c l IH]; intros bol H; [done|].
  rewrite gsub_miss.
  - f_equal. apply IH. by apply (occurs_suffix pat [c]).
  - unfold re_plain. apply occurs_head in H.
    destruct (bre_prefix pat (c :: l)) eqn:E; [|done].
    apply (bre_prefix_app _ _ x) in E. simpl in H, E. congruence.
Qed.

Lemma sed_s_no_match pat rep t :
  occurs pat t = false -> sed_s (re_plain pat rep) t = t.
Proof.
  induction t as [l Hl|l r Hl IH] using text_lines_ind; intros H.
  - rewrite sed_s_one_line by done. apply (gsub_no_match _ _ _ _ []). by rewrite app_nil_r.
  - rewrite sed_s_cons by done. rewrite (gsub_no_match _ _ _ _ (nl :: r)) by done.
    rewrite IH; [done|]. apply (occurs_suffix pat (l ++ [nl])). by rewrite <- app_assoc.
Qed.



Lemma bre_prefix_drop a b t :
  bre_prefix (a ++ b) t = true -> bre_prefix b (drop (length a) t) = true.
Proof.
  revert t. induction a as [|p a IH]; intros t; [done|].
  destruct t as [|c t]; [done|]. simpl. intros [_ H]%andb_prop. by apply IH.
Qed.

Lemma occurs_drop b n t : occurs b (drop n t) = true -> occurs b t = true.
Proof.
  revert t. induction n as [|n IH]; intros t; [done|].
  destruct t as [|c t]; [done|]. simpl. intros H. rewrite (IH _ H). apply orb_true_r.
Qed.

Lemma occurs_longer a b t : occurs b t = false -> occurs (a ++ b) t = false.
Proof.
  induction t as [|c t IH]; intros H.
  - destruct (occurs (a ++ b) []) eqn:E; [|done]. simpl in E. rewrite orb_false_r in E.
    apply bre_prefix_drop in E. destruct (length a); simpl in *; by rewrite E in H.
  - simpl in *. apply orb_false_elim in H as [H1 H2]. rewrite (IH H2), orb_false_r.
    destruct (bre_prefix (a ++ b) (c :: t)) eqn:E; [|done].
    apply bre_prefix_drop in E.
    assert (occurs b (c :: t) = true) as Ho.
    { apply (occurs_drop _ (length a)). destruct (drop (length a) (c :: t)); simpl in *;
        by rewrite E. }
    simpl in Ho. by rewrite H1, H2 in Ho.
Qed.

Lemma sed_fs_kept w f pat rep m c :
  m !! f = Some c -> occurs pat c = false -> sed_fs w f pat rep m !! f = Some c.
Proof.
  intros Hm Hc. unfold sed_fs. destruct (_ =? _)%Z; [|done].
  rewrite lookup_alter_eq, Hm. simpl. by rewrite (sed_s_no_match _ _ _ Hc).
Qed.

Lemma file_fs_kept w slug f m c :
  m !! f = Some c -> occurs PLACEHOLDER_SLUG_APP_JSON c = false ->
  file_fs w slug f m !! f = Some c.
Proof.
  intros Hm Hc. unfold file_fs. rewrite Hm.
  destruct (String.eqb f "app.json").
  - apply sed_fs_kept; [by apply sed_fs_kept|]. by apply occurs_longer.
  - by apply sed_fs_kept.
Qed.

Lemma loop_fs_kept w slug files f m c :
  m !! f = Some c -> occurs PLACEHOLDER_SLUG_APP_JSON c = false ->
  loop_fs w slug files m !! f = Some c.
Proof.
  revert m. induction files as [|g files IH]; intros m Hm Hc; [done|].
  simpl. apply IH; [|done]. destruct (decide (f = g)) as [->|Hne].
  - by apply file_fs_kept.
  - by rewrite file_fs_other.
Qed.

(** A file in which the slug placeholder occurs nowhere is, at the end of
    the run, byte for byte what the copy left, whatever sed returns. *)
Theorem file_without_placeholder_is_kept w f c :
  reaches_copy w -> rsync_dest w !! f = Some c ->
  occurs PLACEHOLDER_SLUG_APP_JSON c = false ->
  final_fs w !! f = Some c.
Proof.
  intros Hr Hsome Hno. destruct (Hr) as [Hlen Hgo].
  run_kinds w; rewrite Hf.
  - done.
  - rewrite Hd in Hgo. congruence.
  - by rewrite Hd in Hgo.
  - done.
  - by apply loop_fs_kept.
Qed.

Lemma file_without_placeholder_is_kept_witness :
  final_fs w_confirmed !! "App.tsx"%string = Some (txt "export default App;" ++ [nl]).
Proof.
  apply (file_without_placeholder_is_kept w_confirmed); [split| |]; reflexivity.
Defined.

(** *** What a successful rewrite leaves *)

Lemma existsb_nl_iff l : existsb is_nl l = true <-> nl ∈ l.
Proof.
  rewrite existsb_exists. split.
  - intros (c & Hin & ->%is_nl_eq). by apply list_elem_of_In.
  - intros H. exists nl. split; [by apply list_elem_of_In|done].
Qed.

Lemma sed_code_ok w f pat rep :
  nl ∉ rep -> sed_status w f pat = 0%Z -> sed_code w f pat rep = 0%Z.
Proof.
  intros Hn Hs. unfold sed_code. destruct (existsb is_nl rep) eqn:E; [|done].
  by apply existsb_nl_iff in E.
Qed.

Lemma bundle_id_nl slug : nl ∈ bundle_id slug <-> nl ∈ slug.
Proof.
  unfold bundle_id. rewrite elem_of_app. split; [intros [H|H]|by right]; [|done].
  apply list_elem_of_In in H. vm_compute in H.
  repeat (destruct H as [H|H]; [discriminate|]). done.
Qed.

(** When every sed call succeeds, [package.json] ends as the copy of it with
    the slug placeholder replaced, and [app.json] with the bundle-identifier
    substitution applied on top of that; a target file that was not copied
    is not created. *)
Theorem rewritten_files w :
  reaches_copy w -> rsync_status w = 0%Z ->
  nl ∉ slug_of w -> (forall f p, sed_status w f p = 0%Z) ->
  final_fs w !! "package.json"%string
  = sed_s (re_plain PLACEHOLDER_SLUG_APP_JSON (slug_of w))
      <$> rsync_dest w !! "package.json"%string
  /\ final_fs w !! "app.json"%string
     = (fun c => sed_s (re_plain BUNDLE_PATTERN (bundle_id (slug_of w)))
                   (sed_s (re_plain PLACEHOLDER_SLUG_APP_JSON (slug_of w)) c))
         <$> rsync_dest w !! "app.json"%string.
Proof.
  intros Hr Hc Hn Hs. destruct (run_success_exact w Hr Hc) as (_ & -> & _).
  assert (forall f m, sed_fs w f PLACEHOLDER_SLUG_APP_JSON (slug_of w) m
                      = alter (sed_s (re_plain PLACEHOLDER_SLUG_APP_JSON (slug_of w))) f m) as E1.
  { intros f m. unfold sed_fs. by rewrite sed_code_ok. }
  assert (forall f m, sed_fs w f BUNDLE_PATTERN (bundle_id (slug_of w)) m
                      = alter (sed_s (re_plain BUNDLE_PATTERN (bundle_id (slug_of w)))) f m) as E2.
  { intros f m. unfold sed_fs. rewrite sed_code_ok; [done| |done]. by rewrite bundle_id_nl. }
  unfold TARGET_FILES. simpl loop_fs. split.
  - set (m' := file_fs w (slug_of w) "app.json" (rsync_dest w)).
    assert (m' !! "package.json"%string = rsync_dest w !! "package.json"%string) as Hm'
      by by apply file_fs_other.
    unfold file_fs. rewrite Hm'.
    destruct (rsync_dest w !! "package.json"%string) as [c|] eqn:E.
    + change (String.eqb "package.json" "app.json") with false. cbv iota.
      by rewrite E1, lookup_alter_eq, Hm'.
    + by rewrite Hm'.
  - rewrite file_fs_other by done. unfold file_fs.
    destruct (rsync_dest w !! "app.json"%string) as [c|] eqn:E; [|by rewrite E].
    change (String.eqb "app.json" "app.json") with true. cbv iota.
    by rewrite E2, E1, !lookup_alter_eq, E.
Qed.

Lemma rewritten_files_witness :
  final_fs w_confirmed !! "package.json"%string
  = sed_s (re_plain PLACEHOLDER_SLUG_APP_JSON (slug_of w_confirmed))
      <$> rsync_dest w_confirmed !! "package.json"%string
  /\ final_fs w_confirmed !! "app.json"%string
     = (fun c => sed_s (re_plain BUNDLE_PATTERN (bundle_id (slug_of w_confirmed)))
                   (sed_s (re_plain PLACEHOLDER_SLUG_APP_JSON (slug_of w_confirmed)) c))
         <$> rsync_dest w_confirmed !! "app.json"%string.
Proof.
  apply (rewritten_files w_confirmed).
  - split; reflexivity.
  - reflexivity.
  - intros H. apply list_elem_of_In in H. vm_compute in H.
    repeat (destruct H as [H|H]; [discriminate|]). done.
  - reflexivity.
Defined.

(** A destination whose slug holds a newline: sed rejects both scripts, so
    the run leaves every file as the copy left it, and still ends with exit
    code 0 when the last [echo] succeeds. *)
Theorem newline_slug_changes_nothing w :
  reaches_copy w -> rsync_status w = 0%Z -> nl ∈ slug_of w ->
  final_fs w = rsync_dest w /\ (echo_status w = 0%Z -> exit_code w = 0%Z).
Proof.
  intros Hr Hc Hn. destruct (run_success_exact w Hr Hc) as (_ & -> & ->).
  split; [|by intros ->].
  assert (forall f pat m, sed_fs w f pat (slug_of w) m = m) as E1.
  { intros f pat m. unfold sed_fs, sed_code.
    by rewrite (proj2 (existsb_nl_iff _) Hn). }
  assert (forall f pat m, sed_fs w f pat (bundle_id (slug_of w)) m = m) as E2.
  { intros f pat m. unfold sed_fs, sed_code.
    by rewrite (proj2 (existsb_nl_iff _) (proj2 (bundle_id_nl _) Hn)). }
  assert (forall f m, file_fs w (slug_of w) f m = m) as E.
  { intros f m. unfold file_fs. destruct (m !! f); [|done].
    destruct (String.eqb f "app.json"); by rewrite ?E2, E1. }
  unfold TARGET_FILES. simpl. by rewrite !E.
Qed.

Lemma newline_slug_changes_nothing_witness :
  final_fs w_two_lines = rsync_dest w_two_lines
  /\ (echo_status w_two_lines = 0%Z -> exit_code w_two_lines = 0%Z).
Proof.
  apply (newline_slug_changes_nothing w_two_lines).
  - split; reflexivity.
  - reflexivity.
  - apply list_elem_of_In. vm_compute. tauto.
Defined.

(** ** More about the derived names *)

(** *** The slug *)








(** Two basenames that differ in the case of their letters only have the
    same slug, unless [echo] takes one of them as an option. *)
Theorem APP_SLUG_ignores_case B1 B2 :
  tr_lower B1 = tr_lower B2 ->
  echo_option B1 = false -> echo_option B2 = false ->
  APP_SLUG B1 = APP_SLUG B2.
Proof.
  intros H H1 H2. rewrite !APP_SLUG_eq, H1, H2. unfold slug_filter. by rewrite H.
Qed.

Lemma APP_SLUG_ignores_case_witness :
  APP_SLUG (txt "My-App") = APP_SLUG (txt "my-app").
Proof. apply APP_SLUG_ignores_case; reflexivity. Defined.

(** *** The basename *)

Lemma last_segment_plain acc l :
  "/" ∉ l -> last_segment acc l = acc ++ l.
Proof.
  revert acc. induction l as [|c l IH]; intros acc H; simpl; [by rewrite app_nil_r|].
  apply not_elem_of_cons in H as [Hc Hl].
  destruct (Ascii.eqb_spec c "/") as [->|_]; [done|].
  unfold is_slash. destruct (Ascii.eqb_spec c "/") as [->|_]; [done|].
  by rewrite IH, <- app_assoc.
Qed.

Lemma last_segment_after acc a b :
  last_segment acc (a ++ "/" :: b) = last_segment [] b.
Proof.
  revert acc. induction a as [|c a IH]; intros acc; simpl; [done|].
  destruct (is_slash c); apply IH.
Qed.

Lemma last_segment_no_slash acc l : "/" ∉ acc -> "/" ∉ last_segment acc l.
Proof.
  revert acc. induction l as [|c l IH]; intros acc H; simpl; [done|].
  unfold is_slash. destruct (Ascii.eqb_spec c "/") as [->|Hc].
  - apply IH. set_solver.
  - apply IH. set_solver.
Qed.

Lemma forallb_repeat p (c : ascii) k : p c = true -> forallb p (repeat c k) = true.
Proof. intros H. induction k; simpl; [done|]. by rewrite H. Qed.

(** The basename is the last segment of the path: what comes before its
    last slash does not count, nor do slashes at the end.  The path is an
    operand of the utility: it does not begin with a hyphen. *)
Theorem BASENAME_last_segment dir name k :
  name <> [] -> "/" ∉ name -> one_line name ->
  head dir <> Some "-" -> head name <> Some "-" ->
  BASENAME (dir ++ "/" :: name ++ repeat "/" k) = name
  /\ BASENAME (name ++ repeat "/" k) = name.
Proof.
  intros Hne Hs Hl _ _.
  assert (rstrip is_slash name = name) as Hfix.
  { apply rstrip_fixed_iff. intros c Hc. unfold is_slash.
    destruct (Ascii.eqb_spec c "/") as [->|]; [|done].
    destruct Hs. apply last_Some in Hc as [l' ->]. set_solver. }
  assert (forall pre, rstrip is_slash (pre ++ name) = pre ++ name) as Hpre.
  { intros pre. induction pre as [|c pre IH]; [done|]. simpl. rewrite IH.
    destruct (pre ++ name) eqn:E; [|done]. by apply app_nil in E as [_ ->]. }
  assert (strip_nl (name ++ [nl]) = name) as Hnl.
  { unfold strip_nl. rewrite rstrip_app_keep by done. by apply rstrip_free. }
  unfold BASENAME, basename. split.
  - replace (dir ++ "/" :: name ++ repeat "/" k)
      with (((dir ++ ["/"]) ++ name) ++ repeat "/" k)
      by (by rewrite <- !app_assoc).
    rewrite rstrip_app_keep by by apply forallb_repeat.
    rewrite Hpre.
    destruct (((dir ++ ["/"]) ++ name) ++ repeat "/" k) eqn:E';
      [by apply app_nil in E' as [[_ ?]%app_nil _]|].
    destruct ((dir ++ ["/"]) ++ name) eqn:E; [by apply app_nil in E as [_ ?]|].
    rewrite <- E, <- app_assoc. simpl.
    by rewrite last_segment_after, last_segment_plain.
  - rewrite rstrip_app_keep by by apply forallb_repeat. rewrite Hfix.
    destruct name as [|c name]; [done|].
    change (strip_nl (last_segment [] (c :: name) ++ [nl]) = c :: name).
    by rewrite last_segment_plain.
Qed.

Lemma BASENAME_last_segment_witness :
  BASENAME (txt "../projects" ++ "/" :: txt "new-awesome-app" ++ repeat "/" 2)
  = txt "new-awesome-app"
  /\ BASENAME (txt "new-awesome-app" ++ repeat "/" 2) = txt "new-awesome-app".
Proof.
  apply (BASENAME_last_segment (txt "../projects") (txt "new-awesome-app") 2).
  - discriminate.
  - intros H. apply list_elem_of_In in H. vm_compute in H.
    repeat (destruct H as [H|H]; [discriminate|]). done.
  - reflexivity.
  - discriminate.
  - discriminate.
Defined.

(** The basename of an operand holds no slash, unless the path is made of
    slashes only: then it is [/]. *)
Theorem BASENAME_no_slash p :
  head p <> Some "-" -> BASENAME p = ["/"] \/ "/" ∉ BASENAME p.
Proof.
  intros _. unfold BASENAME, basename. destruct p as [|c p]; [right; set_solver|].
  destruct (rstrip is_slash (c :: p)) as [|d q] eqn:E; [by left|]. right.
  unfold strip_nl. rewrite rstrip_app_keep by done.
  destruct (rstrip_split is_nl (last_segment [] (d :: q))) as (s & Hs & _).
  intros H. apply (last_segment_no_slash [] (d :: q)); [set_solver|].
  rewrite Hs. set_solver.
Qed.

Lemma BASENAME_no_slash_witness :
  BASENAME (txt "///") = ["/"] \/ "/" ∉ BASENAME (txt "///").
Proof. apply (BASENAME_no_slash (txt "///")). discriminate. Defined.

(** *** The display name *)

(** [s/(^|-)([a-z])/\U\2/g] is [initials]. *)
Lemma gsub_initials bol l : gsub re_word_initial 0 bol l = initials bol l.
Proof.
  revert bol. induction l as [|c r IH]; intros bol; [done|].
  simpl initials. destruct (bol && is_lower c) eqn:E1.
  - rewrite (gsub_hit _ _ _ _ 0 [to_upper c]); [|by simpl; rewrite E1].
    simpl. by rewrite IH.
  - destruct (is_hyphen c) eqn:E2.
    + destruct r as [|d r'].
      * rewrite gsub_miss; [done|]. simpl. by rewrite E1, E2.
      * destruct (is_lower d) eqn:E3.
        -- rewrite (gsub_hit _ _ _ _ 1 [to_upper d]); [|by simpl; rewrite E1, E2, E3].
           assert (is_hyphen d = false) as E4.
           { destruct (is_hyphen d) eqn:E4; [|done]. apply is_hyphen_eq in E4 as ->. done. }
           pose proof (IH false) as H0.
           rewrite gsub_miss in H0 by (simpl; by rewrite E4).
           simpl initials in H0 |- *. rewrite E3, E4 in *. simpl in H0 |- *.
           injection H0 as H0. change (drop 0 r') with r'. by rewrite H0.
        -- rewrite gsub_miss; [by rewrite IH|]. simpl. by rewrite E1, E2, E3.
    + rewrite gsub_miss; [by rewrite IH|]. simpl. by rewrite E1, E2.
Qed.

Lemma lower_upper_plain c :
  is_lower c = true ->
  is_nl (to_upper c) = false /\ is_hyphen (to_upper c) = false
  /\ is_space (to_upper c) = false /\ to_lower (to_upper c) = c.
Proof. intros H; revert H. each_byte c; done. Qed.

Lemma alnum_plain c :
  is_alnum c = true -> is_space c = false /\ is_hyphen c = false /\ to_lower c = c.
Proof. intros H; revert H. each_byte c; done. Qed.

Lemma initials_one_line up l : one_line l -> one_line (initials up l).
Proof.
  unfold one_line. revert up. induction l as [|c r IH]; intros up; [done|].
  intros [Hc Hr]%andb_prop. simpl initials. destruct (up && is_lower c) eqn:E1.
  - apply andb_prop in E1 as [_ E1]. apply lower_upper_plain in E1 as (E1 & _).
    simpl. by rewrite E1, IH.
  - destruct (is_hyphen c); [|by cbn [forallb]; rewrite Hc, IH].
    destruct r as [|d r']; [by simpl; rewrite Hc|].
    destruct (is_lower d); [by apply IH|]. cbn [forallb]. rewrite Hc. by apply IH.
Qed.

Lemma one_line_hyphen_space l : one_line l -> one_line (tr_hyphen_space l).
Proof.
  unfold one_line, tr_hyphen_space. induction l as [|c r IH]; [done|]. simpl.
  intros [Hc Hr]%andb_prop. rewrite (IH Hr), andb_true_r. unfold hyphen_to_space.
  by destruct (is_hyphen c).
Qed.

(** The display name of a slug of one line that [echo] prints as it is. *)
Lemma APP_NAME_line s :
  one_line s -> echo_option s = false ->
  APP_NAME s = tr_hyphen_space (initials true s).
Proof.
  intros Hl He. unfold APP_NAME, echo_out. rewrite He.
  rewrite sed_s_cons by done. rewrite gsub_initials.
  change (sed_s re_word_initial []) with (@nil ascii).
  unfold tr_hyphen_space. rewrite map_app. simpl map.
  change (hyphen_to_space nl) with nl. unfold strip_nl.
  rewrite rstrip_app_keep by done.
  by apply rstrip_free, one_line_hyphen_space, initials_one_line.
Qed.

Lemma initials_letters b up l :
  loose b l = true ->
  tr_lower (List.filter (fun c => negb (is_space c)) (tr_hyphen_space (initials up l)))
  = List.filter (fun c => negb (is_hyphen c)) l.
Proof.
  revert b up. induction l as [|c r IH]; intros b up; [done|].
  simpl loose. simpl initials. destruct (is_alnum c) eqn:Hc.
  - intros Hr. destruct (alnum_plain _ Hc) as (Hs & Hh & Hlow).
    simpl List.filter at 2. rewrite Hh. simpl negb. cbv iota.
    destruct (up && is_lower c) eqn:E1.
    + apply andb_prop in E1 as [_ E1].
      destruct (lower_upper_plain _ E1) as (_ & Hh' & Hs' & Hlow').
      simpl. unfold hyphen_to_space. rewrite Hh', Hs'. simpl.
      rewrite Hlow'. f_equal. by apply (IH false).
    + simpl. unfold hyphen_to_space. rewrite Hh, Hs. simpl.
      rewrite Hlow. f_equal. by apply (IH false).
  - intros [[Hh _]%andb_prop Hr]%andb_prop.
    simpl List.filter at 2. rewrite Hh. simpl negb. cbv iota.
    assert (up && is_lower c = false) as ->.
    { apply is_hyphen_eq in Hh as ->. by rewrite andb_false_r. }
    apply is_hyphen_eq in Hh as ->.
    assert (forall x, List.filter (fun c => negb (is_space c)) (tr_hyphen_space ("-" :: x))
                      = List.filter (fun c => negb (is_space c)) (tr_hyphen_space x)) as Hdrop
      by done.
    destruct r as [|d r']; [done|].
    destruct (is_lower d); [by apply (IH true)|].
    rewrite Hdrop. by apply (IH true).
Qed.

(** The display name spells the letters and digits of the slug, in their
    order: without its spaces and in lower case it is the slug without its
    hyphens. *)
Theorem APP_NAME_keeps_letters s :
  slug_form s ->
  tr_lower (List.filter (fun c => negb (is_space c)) (APP_NAME s))
  = List.filter (fun c => negb (is_hyphen c)) s.
Proof.
  intros Hs. rewrite APP_NAME_line.
  - destruct Hs as [Hl _]. by eapply initials_letters.
  - by apply slug_form_one_line.
  - by apply slug_form_not_option.
Qed.

Lemma APP_NAME_keeps_letters_witness :
  tr_lower (List.filter (fun c => negb (is_space c)) (APP_NAME (txt "my-2nd-app")))
  = List.filter (fun c => negb (is_hyphen c)) (txt "my-2nd-app").
Proof. apply APP_NAME_keeps_letters. split; reflexivity. Defined.

Lemma initials_word l :
  forallb is_alnum l = true -> initials false l = l /\ tr_hyphen_space l = l.
Proof.
  induction l as [|c r IH]; [done|]. simpl. intros [Hc Hr]%andb_prop.
  destruct (IH Hr) as [-> E]. destruct (alnum_plain _ Hc) as (_ & Hh & _).
  unfold tr_hyphen_space in *. simpl. rewrite E. unfold hyphen_to_space. by rewrite Hh.
Qed.

(** A slug of one segment becomes its own display name, with the first
    letter in upper case. *)
Theorem APP_NAME_one_word s :
  (forall c, c ∈ s -> is_alnum c = true) -> APP_NAME s = capitalize s.
Proof.
  intros H. assert (forallb is_alnum s = true) as Hall.
  { apply forallb_forall. intros c Hc. by apply H, list_elem_of_In. }
  assert (forall b, loose b s = true) as Hlb.
  { clear H. induction s as [|c r IH]; intros b; [done|]. simpl in *.
    apply andb_prop in Hall as [-> Hr]. by apply IH. }
  pose proof (Hlb true) as Hl.
  rewrite APP_NAME_line.
  - destruct s as [|c r]; [done|]. simpl in Hall. apply andb_prop in Hall as [Hc Hr].
    destruct (initials_word _ Hr) as [E1 E2]. destruct (alnum_plain _ Hc) as (_ & Hh & _).
    simpl. rewrite E1. unfold tr_hyphen_space in *. unfold to_upper.
    destruct (is_lower c) eqn:El.
    + simpl. rewrite E2. unfold hyphen_to_space.
      destruct (lower_upper_plain _ El) as (_ & Hh' & _). unfold to_upper in Hh'.
      rewrite El in Hh'. by rewrite Hh'.
    + rewrite Hh. simpl. rewrite E2. unfold hyphen_to_space. by rewrite Hh.
  - by eapply loose_no_nl.
  - destruct (echo_option s) eqn:E; [|done]. apply echo_option_head in E as [r ->].
    by apply loose_head in Hl.
Qed.

Lemma APP_NAME_one_word_witness : APP_NAME (txt "taco2go") = capitalize (txt "taco2go").
Proof.
  apply APP_NAME_one_word. intros c H. apply list_elem_of_In in H. vm_compute in H.
  repeat (destruct H as [<-|H]; [reflexivity|]). done.
Defined.

(** The display name never holds a hyphen, whatever the slug. *)
Theorem APP_NAME_never_hyphen s : "-" ∉ APP_NAME s.
Proof. intros H. by apply APP_NAME_no_hyphen in H. Qed.

(** ** The exit code and the last lines *)


